(** * The tree menu of django-tree-menu-app

    A shallow embedding of [menu_app/models.py] and
    [menu_app/templatetags/menu_tags.py]: the [MenuItem] model with its
    [get_absolute_url] and [ancestors], the grouping helper [build_tree] and
    the template tag [draw_menu] with its inner [build_subtree]. *)

From stdpp Require Import gmap strings list fin_maps sorting.

Open Scope string_scope.
Open Scope list_scope.
Open Scope Z_scope.

(** ** Outcomes of a Python call

    A call returns a value, raises an exception, or does not come back
    (unbounded recursion or an endless loop); the last one is what the
    executable model reports when its fuel is used up. *)

Inductive exn : Type :=
  | DoesNotExist
  | MultipleObjectsReturned
  | NoReverseMatch
  | RuntimeError (msg : string)
  | OtherException (name : string).

Inductive result (A : Type) : Type :=
  | Ok (a : A)
  | Raise (e : exn)
  | OutOfFuel.

Arguments Ok {A} a.
Arguments Raise {A} e.
Arguments OutOfFuel {A}.

#[global] Instance result_ret : MRet result := fun A a => Ok a.

#[global] Instance result_bind : MBind result := fun A B f m =>
  match m with
  | Ok a => f a
  | Raise e => Raise e
  | OutOfFuel => OutOfFuel
  end.

#[global] Instance exn_eq_dec : EqDecision exn.
Proof. solve_decision. Defined.

#[global] Instance result_eq_dec `{EqDecision A} : EqDecision (result A).
Proof. solve_decision. Defined.

(** [try: m except Exception: h] : every exception of [exn] is an
    [Exception], so the handler takes them all. *)
Definition try_except {A} (m : result A) (h : exn → result A) : result A :=
  match m with
  | Raise e => h e
  | _ => m
  end.

(** The outcome of a call that comes back. *)
Definition call {A} (r : exn + A) : result A :=
  match r with
  | inl e => Raise e
  | inr a => Ok a
  end.

(** ** models.py *)

Record Menu : Type := mkMenu {
  menu_pk : Z;
  name : string;
  slug : string;
}.

(** One row of the [MenuItem] table. [menu] and [parent] are foreign keys,
    kept as the key they store ([menu_id], [parent_id]); blank character
    fields are the empty string. *)
Record MenuItem : Type := mkMenuItem {
  id : Z;
  menu_id : Z;
  title : string;
  url : string;
  named_url : string;
  parent_id : option Z;
  order : Z;
}.

#[global] Instance Menu_eq_dec : EqDecision Menu.
Proof. solve_decision. Defined.

#[global] Instance MenuItem_eq_dec : EqDecision MenuItem.
Proof. solve_decision. Defined.

(** Python's [s or '#'] on strings. *)
Definition str_or (s d : string) : string :=
  if decide (s = "") then d else s.

Section Resolver.

(** [django.urls.reverse]: the URL of a pattern name, or the exception it
    raises. *)
Variable reverse : string → exn + string.

Definition get_absolute_url (self : MenuItem) : result string :=
  if decide (named_url self = "") then
    Ok (str_or (url self) "#")
  else
    try_except (call (reverse (named_url self)))
               (fun _ => Ok (str_or (url self) "#")).

End Resolver.

(** The database: the two tables the tag reads. *)
Record Database : Type := mkDatabase {
  menus : list Menu;
  menu_items : list MenuItem;
}.

(** [self.parent]: the related row, fetched by primary key. The column is a
    foreign key, so a stored key always has its row; the lookup of a key
    without a row raises [DoesNotExist]. *)
Definition parent (table : list MenuItem) (self : MenuItem)
  : result (option MenuItem) :=
  match parent_id self with
  | None => Ok None
  | Some p =>
      match List.find (fun r => bool_decide (id r = p)) table with
      | Some r => Ok (Some r)
      | None => Raise DoesNotExist
      end
  end.

(** The [while parent:] loop of [ancestors], [cur] being the loop variable. *)
Fixpoint ancestors_loop (fuel : nat) (table : list MenuItem)
    (cur : option MenuItem) : result (list MenuItem) :=
  match cur with
  | None => Ok []
  | Some p =>
      match fuel with
      | O => OutOfFuel
      | S fuel' =>
          next ← parent table p;
          rest ← ancestors_loop fuel' table next;
          Ok (p :: rest)
      end
  end.

Definition ancestors (fuel : nat) (table : list MenuItem) (self : MenuItem)
  : result (list MenuItem) :=
  first ← parent table self;
  ancestors_loop fuel table first.

(** ** menu_tags.py: [build_tree] *)

(** The sort key [(obj.order, obj.id)], compared as Python compares tuples. *)
Definition sort_key (x : MenuItem) : Z * Z := (order x, id x).

Definition key_le (a b : Z * Z) : Prop :=
  a.1 < b.1 ∨ (a.1 = b.1 ∧ a.2 ≤ b.2).

Definition item_le (x y : MenuItem) : Prop := key_le (sort_key x) (sort_key y).

#[global] Instance key_le_dec a b : Decision (key_le a b).
Proof. unfold key_le. apply _. Defined.

#[global] Instance item_le_dec x y : Decision (item_le x y).
Proof. unfold item_le. apply _. Defined.

(** [list.sort] is stable: an element goes in front of the first element
    whose key is not smaller, and elements are put in from the right. *)
Fixpoint sort_insert (x : MenuItem) (l : list MenuItem) : list MenuItem :=
  match l with
  | [] => [x]
  | y :: l' => if decide (item_le x y) then x :: l else y :: sort_insert x l'
  end.

Definition sort_items (l : list MenuItem) : list MenuItem :=
  foldr sort_insert [] l.

(** [tree.setdefault(parent_id, []).append(item)] *)
Definition setdefault_append (tree : gmap (option Z) (list MenuItem))
    (item : MenuItem) : gmap (option Z) (list MenuItem) :=
  <[parent_id item := default [] (tree !! parent_id item) ++ [item]]> tree.

Definition build_tree (items : list MenuItem)
  : gmap (option Z) (list MenuItem) :=
  sort_items <$> foldl setdefault_append ∅ items.

(** [tree.get(key, [])] *)
Definition tree_get (tree : gmap (option Z) (list MenuItem)) (key : option Z)
  : list MenuItem :=
  default [] (tree !! key).

(** ** menu_tags.py: [draw_menu] *)

#[local] Set Warnings "-register-all".

(** A node dictionary [{'item', 'children', 'active', 'open'}]. The
    dictionaries are objects: [node_map] keeps a second reference to each of
    them and [draw_menu] writes ['open'] through it. [ref] is the identity of
    the object, its number in order of creation; every dictionary is created
    once and sits at one place of the tree, so a write through a reference is
    a write to the node of the tree that carries it. *)
Inductive Node : Type :=
  mkNode (ref : nat) (item : MenuItem) (children : list Node)
         (active open : bool).

Definition ref (n : Node) : nat := let 'mkNode r _ _ _ _ := n in r.
Definition item (n : Node) : MenuItem := let 'mkNode _ i _ _ _ := n in i.
Definition children (n : Node) : list Node := let 'mkNode _ _ c _ _ := n in c.
Definition active (n : Node) : bool := let 'mkNode _ _ _ a _ := n in a.
Definition open (n : Node) : bool := let 'mkNode _ _ _ _ o := n in o.

(** [node['open'] = True] for the dictionary with reference [r]. *)
Fixpoint set_open (r : nat) (n : Node) : Node :=
  let 'mkNode r' i cs a o := n in
  mkNode r' i (set_open r <$> cs) a (if decide (r' = r) then true else o).

(** What a call leaves behind: the returned [menu_tree], and the one write it
    makes to a record object, the [ancestors] list that [cached_property]
    stores on the record it was asked of (objects fetched by one query have
    distinct primary keys, so the record's value tells which object it is). *)
Record TagResult : Type := mkTagResult {
  menu_tree : list Node;
  cached_ancestors : option (MenuItem * list MenuItem);
}.

(** The variables [build_subtree] shares with [draw_menu]: the dictionary
    [node_map], the [nonlocal active_item], and the next free reference. *)
Record State : Type := mkState {
  next_ref : nat;
  node_map : gmap Z nat;
  active_item : option MenuItem;
}.

(** A loop that runs [f] on each element in turn, threading the state, and
    collects the results: the [for child in ...: append] of [build_subtree]
    and the list comprehension over the roots. *)
Fixpoint for_each {A B : Type} (f : A → State → result (B * State))
    (l : list A) (st : State) : result (list B * State) :=
  match l with
  | [] => Ok ([], st)
  | x :: l' =>
      '(y, st1) ← f x st;
      '(ys, st2) ← for_each f l' st1;
      Ok (y :: ys, st2)
  end.

Section Assembler.

Variable reverse : string → exn + string.
Variable tree : gmap (option Z) (list MenuItem).
Variable current_path : string.

(** [fuel] bounds the depth of the recursion. *)
Fixpoint build_subtree (fuel : nat) (it : MenuItem) (st : State)
  : result (Node * State) :=
  match fuel with
  | O => OutOfFuel
  | S fuel' =>
      u ← get_absolute_url reverse it;
      let is_active := bool_decide (u = current_path) in
      let r := next_ref st in
      let st1 :=
        {| next_ref := S r;
           node_map := <[id it := r]> (node_map st);
           active_item := if is_active then Some it else active_item st |} in
      '(cs, st2) ← for_each (build_subtree fuel')
                            (tree_get tree (Some (id it))) st1;
      Ok (mkNode r it cs is_active false, st2)
  end.

End Assembler.

(** [node = node_map.get(key); if node: node['open'] = True] *)
Definition open_by_id (nm : gmap Z nat) (forest : list Node) (key : Z)
  : list Node :=
  match nm !! key with
  | Some r => set_open r <$> forest
  | None => forest
  end.

(** [node_map = {}], [active_item = None], and no dictionary created yet. *)
Definition init_state : State :=
  {| next_ref := O; node_map := ∅; active_item := None |}.

(** Lines 63 to 103 of [draw_menu]: everything after the records [items] of
    the menu have been fetched. [table] is the table [parent] reads. *)
Definition draw_menu_body (reverse : string → exn + string) (fuel : nat)
    (table : list MenuItem) (current_path : string) (items : list MenuItem)
  : result TagResult :=
  let tree := build_tree items in
  '(forest, st) ← for_each (build_subtree reverse tree current_path fuel)
                           (tree_get tree None) init_state;
  match active_item st with
  | None => Ok {| menu_tree := forest; cached_ancestors := None |}
  | Some a =>
      ancs ← ancestors fuel table a;
      let forest1 := foldl (open_by_id (node_map st)) forest (id <$> ancs) in
      let forest2 := open_by_id (node_map st) forest1 (id a) in
      Ok {| menu_tree := forest2; cached_ancestors := Some (a, ancs) |}
  end.

(** The template context: the values [draw_menu] can find under a key. *)
Record HttpRequest : Type := mkRequest { path : string }.

Inductive CtxValue : Type :=
  | PyNone
  | PyRequest (request : HttpRequest).

(** [Menu.objects.get(name=menu_name)] *)
Definition Menu_objects_get (db : Database) (menu_name : string)
  : result Menu :=
  match filter (fun m => name m = menu_name) (menus db) with
  | [] => Raise DoesNotExist
  | [m] => Ok m
  | _ => Raise MultipleObjectsReturned
  end.

(** [MenuItem.objects.filter(menu=menu).select_related('parent')
    .order_by('order', 'id')] *)
Definition MenuItem_objects_filter (db : Database) (menu : Menu)
  : list MenuItem :=
  sort_items (filter (fun r => menu_id r = menu_pk menu) (menu_items db)).

Definition draw_menu (reverse : string → exn + string) (fuel : nat)
    (db : Database) (context : gmap string CtxValue) (menu_name : string)
  : result TagResult :=
  match context !! "request" with
  | None | Some PyNone =>
      Raise (RuntimeError "draw_menu requires 'request' to be in the context")
  | Some (PyRequest request) =>
      match Menu_objects_get db menu_name with
      | Raise DoesNotExist =>
          Ok {| menu_tree := []; cached_ancestors := None |}
      | Raise e => Raise e
      | OutOfFuel => OutOfFuel
      | Ok menu =>
          let items := MenuItem_objects_filter db menu in
          draw_menu_body reverse fuel (menu_items db) (path request) items
      end
  end.

(** ** Scenarios *)

Definition no_reverse (n : string) : exn + string := inl NoReverseMatch.

Definition rec (i : Z) (p : option Z) (o : Z) (u : string) : MenuItem :=
  {| id := i; menu_id := 1; title := ""; url := u; named_url := "";
     parent_id := p; order := o |}.

(** The three records of the scenario of the specification, out of order. *)
Definition spec_items : list MenuItem :=
  [rec 3 (Some 1) 1 "/contact"; rec 1 None 0 "/"; rec 2 (Some 1) 0 "/about"].

(** Two roots with the same location. *)
Definition two_home : list MenuItem :=
  [rec 1 None 0 "/"; rec 2 None 1 "/"].

(** Two records with the same id. *)
Definition same_id : list MenuItem :=
  [rec 1 None 0 "/a"; rec 1 None 1 "/b"].

(** Two records that are each other's parent. *)
Definition two_cycle : list MenuItem :=
  [rec 1 (Some 2) 0 "/a"; rec 2 (Some 1) 0 "/b"].

(** A root, and a record whose parent is not in the group. *)
Definition with_orphan : list MenuItem :=
  [rec 1 None 0 "/"; rec 2 (Some 99) 0 "/x"].

(** A root, and a record with the root's id that is its own parent. *)
Definition self_parent : list MenuItem :=
  [rec 1 None 0 "/"; rec 1 (Some 1) 0 "/x"].

Definition spec_db : Database :=
  {| menus := [{| menu_pk := 1; name := "main_menu"; slug := "main" |}];
     menu_items := spec_items |}.

Definition about_context : gmap string CtxValue :=
  {["request" := PyRequest {| path := "/about" |}]}.

Definition no_request_message : string :=
  "draw_menu requires 'request' to be in the context".

Close Scope Z_scope.
Close Scope string_scope.

(** * The vocabulary of the properties *)

(** The nodes of a tree from the top down and from left to right, which is
    also the order in which [build_subtree] creates them. *)
Fixpoint preorder (n : Node) : list Node :=
  n :: (children n ≫= preorder).

(** All the nodes of a list of trees, in the same order. *)
Definition nodes (forest : list Node) : list Node :=
  forest ≫= preorder.

(** [node_map[item.id] = node], as one step over the nodes in order. *)
Definition record_node (nm : gmap Z nat) (n : Node) : gmap Z nat :=
  <[id (item n) := ref n]> nm.

(** [if is_active: active_item = item], as one step over the nodes in
    order. *)
Definition pick_active (acc : option MenuItem) (n : Node) : option MenuItem :=
  if active n then Some (item n) else acc.

(** The node is as [build_subtree] leaves it when it returns. *)
Definition fresh_node (reverse : string → exn + string)
    (tree : gmap (option Z) (list MenuItem)) (current_path : string)
    (m : Node) : Prop :=
  active m = bool_decide (get_absolute_url reverse (item m) = Ok current_path)
  ∧ open m = false
  ∧ item <$> children m = tree_get tree (Some (id (item m))).

(** The nodes [ns], created in this order, take the state [st] to [st']. *)
Record built (reverse : string → exn + string)
    (tree : gmap (option Z) (list MenuItem)) (current_path : string)
    (st : State) (ns : list Node) (st' : State) : Prop := {
  built_refs : ref <$> ns = seq (next_ref st) (length ns);
  built_next : next_ref st' = next_ref st + length ns;
  built_map : node_map st' = foldl record_node (node_map st) ns;
  built_active : active_item st' = foldl pick_active (active_item st) ns;
  built_fresh : Forall (fresh_node reverse tree current_path) ns;
}.

(** [lineage items x l] : [l] is [x] followed by its parent, the parent's
    parent and so on inside [items], up to a record without a parent. *)
Inductive lineage (items : list MenuItem) : MenuItem → list MenuItem → Prop :=
  | lineage_root x :
      parent_id x = None → lineage items x [x]
  | lineage_step x y l :
      parent_id x = Some (id y) → y ∈ items → lineage items y l →
      lineage items x (x :: l).

(** The record of [c] is in the group and [L] is its chain of parents. *)
Definition rooted (items : list MenuItem) (L : list MenuItem) (c : Node)
  : Prop :=
  item c ∈ items ∧ lineage items (item c) (item c :: L).

(** The record of [m] is in the group and its chain passes through [c]. *)
Definition below (items : list MenuItem) (L : list MenuItem) (c m : Node)
  : Prop :=
  item m ∈ items ∧ ∃ pre, lineage items (item m) (pre ++ item c :: L).

(** What holds of a subtree whose root has the chain [L]: no record twice,
    and every record below the root. *)
Definition tidy (reverse : string → exn + string) (current_path : string)
    (items : list MenuItem) (n : Node) : Prop :=
  ∀ L, rooted items L n →
       Forall (fresh_node reverse (build_tree items) current_path)
              (preorder n) →
       NoDup (item <$> preorder n)
       ∧ ∀ m, m ∈ preorder n → below items L n m.

(** [node['open'] = True] for every dictionary whose reference is in [rs]. *)
Fixpoint open_refs (rs : list nat) (n : Node) : Node :=
  let 'mkNode r i cs a o := n in
  mkNode r i (open_refs rs <$> cs) a (if decide (r ∈ rs) then true else o).

(** The references [node_map.get] finds for the keys. *)
Definition found_refs (nm : gmap Z nat) (keys : list Z) : list nat :=
  omap (fun k => nm !! k) keys.

(** What the database guarantees of the records of one query: the primary
    key [id] is unique in the table, and the query returns rows of the table,
    each once. *)
Definition stored (table items : list MenuItem) : Prop :=
  NoDup (id <$> table) ∧ items ⊆ table ∧ NoDup items.

#[global] Instance stored_dec table items : Decision (stored table items).
Proof. unfold stored. apply _. Defined.

(** The nodes marked active, in the order of the traversal. *)
Definition matches (forest : list Node) : list Node :=
  filter (fun n => active n = true) (nodes forest).

(** [y] is a record of the group and the parent of [x]. *)
Definition parent_in (items : list MenuItem) (x y : MenuItem) : Prop :=
  parent_id x = Some (id y) ∧ y ∈ items.

(** Following parents from [x] leads back to [x]. *)
Definition on_cycle (items : list MenuItem) (x : MenuItem) : Prop :=
  tc (parent_in items) x x.

(** The parent of [x] is set and is the id of no record of the group. *)
Definition orphan (items : list MenuItem) (x : MenuItem) : Prop :=
  ∃ p, parent_id x = Some p ∧ ∀ y, y ∈ items → id y ≠ p.

(** Whether the chain of parents of [x] inside the group ends at a record
    without a parent, following at most [fuel] links. *)
Fixpoint reaches_root (items : list MenuItem) (fuel : nat) (x : MenuItem)
  : bool :=
  match parent_id x with
  | None => true
  | Some p =>
      match fuel with
      | O => false
      | S fuel' =>
          match List.find (fun r => bool_decide (id r = p)) items with
          | Some y => reaches_root items fuel' y
          | None => false
          end
      end
  end.

(** * Properties *)

(** ** The location of a record *)

Lemma get_absolute_url_total reverse x :
  ∃ u, get_absolute_url reverse x = Ok u.
Proof.
  unfold get_absolute_url. case_decide; [eauto |].
  destruct (reverse (named_url x)); simpl; eauto.
Qed.

(** ** Sorting *)

Lemma item_le_total x y : item_le x y ∨ item_le y x.
Proof. unfold item_le, key_le, sort_key; simpl. lia. Qed.

Lemma sort_insert_perm x l : sort_insert x l ≡ₚ x :: l.
Proof.
  induction l as [|y l IH]; simpl; [done |].
  case_decide; [done |]. rewrite IH. apply Permutation_swap.
Qed.

Lemma sort_items_perm l : sort_items l ≡ₚ l.
Proof.
  induction l as [|x l IH]; simpl; [done |].
  rewrite sort_insert_perm. by f_equiv.
Qed.

Lemma sort_insert_hd x l z :
  HdRel item_le z l → item_le z x → HdRel item_le z (sort_insert x l).
Proof.
  intros Hl Hx. destruct l as [|y l]; simpl; [by constructor |].
  case_decide; constructor; [done |]. by inversion Hl.
Qed.

Lemma sort_insert_sorted x l :
  Sorted item_le l → Sorted item_le (sort_insert x l).
Proof.
  induction 1 as [|y l Hs IH Hhd]; simpl; [by repeat constructor |].
  case_decide as Hxy.
  - constructor; [by constructor | by constructor].
  - constructor; [done |]. apply sort_insert_hd; [done |].
    by destruct (item_le_total x y).
Qed.

Lemma sort_items_sorted l : Sorted item_le (sort_items l).
Proof.
  induction l as [|x l IH]; simpl; [constructor |].
  by apply sort_insert_sorted.
Qed.

Lemma elem_of_sort_items x l : x ∈ sort_items l ↔ x ∈ l.
Proof. by rewrite sort_items_perm. Qed.

(** ** The grouping *)

Lemma grouping_lookup (items : list MenuItem) m k :
  default [] (foldl setdefault_append m items !! k)
  = default [] (m !! k) ++ filter (fun x => parent_id x = k) items.
Proof.
  revert m. induction items as [|x items IH]; intros m; simpl.
  - by rewrite app_nil_r.
  - rewrite IH. unfold setdefault_append. rewrite filter_cons.
    destruct (decide (parent_id x = k)) as [->|Hne].
    + rewrite lookup_insert_eq. simpl. by rewrite <- app_assoc.
    + by rewrite lookup_insert_ne.
Qed.

Lemma tree_get_build_tree items k :
  tree_get (build_tree items) k
  = sort_items (filter (fun x => parent_id x = k) items).
Proof.
  unfold tree_get, build_tree. rewrite lookup_fmap.
  pose proof (grouping_lookup items ∅ k) as H.
  rewrite lookup_empty in H. simpl in H.
  destruct (foldl setdefault_append ∅ items !! k); simpl in *; by rewrite <- H.
Qed.

Lemma build_tree_lookup items k l :
  build_tree items !! k = Some l →
  l = sort_items (filter (fun x => parent_id x = k) items).
Proof.
  intros H. rewrite <- tree_get_build_tree. unfold tree_get. by rewrite H.
Qed.

Lemma elem_of_tree_get items k x :
  x ∈ tree_get (build_tree items) k ↔ x ∈ items ∧ parent_id x = k.
Proof.
  rewrite tree_get_build_tree, elem_of_sort_items, list_elem_of_filter.
  tauto.
Qed.

(** ** The nodes of a tree *)

Lemma Node_nested_ind (P : Node → Prop) :
  (∀ r i cs a o, Forall P cs → P (mkNode r i cs a o)) → ∀ n, P n.
Proof.
  intros step. fix IH 1. intros [r i cs a o]. apply step.
  induction cs as [|c cs IHcs]; constructor; [apply IH | apply IHcs].
Qed.

Lemma preorder_unfold n : preorder n = n :: nodes (children n).
Proof. by destruct n. Qed.

Lemma nodes_cons n forest : nodes (n :: forest) = preorder n ++ nodes forest.
Proof. done. Qed.

Lemma nodes_app f1 f2 : nodes (f1 ++ f2) = nodes f1 ++ nodes f2.
Proof. apply bind_app. Qed.

Lemma elem_of_nodes m forest : m ∈ nodes forest ↔ ∃ n, n ∈ forest ∧ m ∈ preorder n.
Proof.
  unfold nodes. rewrite list_elem_of_bind.
  split; [intros (n & Hm & Hn) | intros (n & Hn & Hm)]; eauto.
Qed.

Lemma preorder_self n : n ∈ preorder n.
Proof. rewrite preorder_unfold. apply list_elem_of_here. Qed.

Lemma elem_of_preorder m n :
  m ∈ preorder n ↔ m = n ∨ ∃ c, c ∈ children n ∧ m ∈ preorder c.
Proof. by rewrite preorder_unfold, elem_of_cons, elem_of_nodes. Qed.

Lemma preorder_trans m n k : m ∈ preorder n → n ∈ preorder k → m ∈ preorder k.
Proof.
  revert n m. induction k as [r i cs a o IH] using Node_nested_ind.
  intros n m Hm Hn. apply elem_of_preorder in Hn as [->|(c & Hc & Hn)]; [done |].
  apply elem_of_preorder. right. exists c. split; [done |].
  rewrite Forall_forall in IH. eapply IH; eauto.
Qed.

Lemma child_in_nodes c m forest :
  m ∈ nodes forest → c ∈ children m → c ∈ nodes forest.
Proof.
  rewrite !elem_of_nodes. intros (n & Hn & Hm) Hc. exists n. split; [done |].
  eapply preorder_trans; [|done]. apply elem_of_preorder. right.
  exists c. split; [done | apply preorder_self].
Qed.

(** ** What [build_subtree] does to the shared variables *)

Section Built.

Variable reverse : string → exn + string.
Variable tree : gmap (option Z) (list MenuItem).
Variable current_path : string.

Lemma built_nil st : built reverse tree current_path st [] st.
Proof. split; simpl; auto. Qed.

Lemma built_app st l1 st1 l2 st2 :
  built reverse tree current_path st l1 st1 →
  built reverse tree current_path st1 l2 st2 →
  built reverse tree current_path st (l1 ++ l2) st2.
Proof.
  intros [R1 N1 M1 A1 F1] [R2 N2 M2 A2 F2]. split.
  - rewrite fmap_app, length_app, seq_app, R1, R2, N1. done.
  - rewrite N2, N1, length_app. lia.
  - by rewrite foldl_app, <- M1.
  - by rewrite foldl_app, <- A1.
  - by apply Forall_app.
Qed.

Lemma for_each_built (f : MenuItem → State → result (Node * State)) l :
  (∀ it st n st', f it st = Ok (n, st') →
                  item n = it ∧ built reverse tree current_path st (preorder n) st') →
  ∀ st ns st', for_each f l st = Ok (ns, st') →
               item <$> ns = l ∧ built reverse tree current_path st (nodes ns) st'.
Proof.
  intros Hf. induction l as [|x l IH]; intros st ns st' H; simpl in H.
  - inversion H; subst. split; [done | apply built_nil].
  - destruct (f x st) as [[y st1]| |] eqn:E; simpl in H; try done.
    destruct (for_each f l st1) as [[ys st2]| |] eqn:E'; simpl in H; try done.
    inversion H; subst. apply Hf in E as [<- B1]. apply IH in E' as [<- B2].
    split; [done |]. rewrite nodes_cons. by eapply built_app.
Qed.

Lemma build_subtree_built fuel it st n st' :
  build_subtree reverse tree current_path fuel it st = Ok (n, st') →
  item n = it ∧ built reverse tree current_path st (preorder n) st'.
Proof.
  revert it st n st'. induction fuel as [|fuel IH]; intros it st n st' H;
    simpl in H; [done |].
  destruct (get_absolute_url_total reverse it) as [u Hu].
  rewrite Hu in H. simpl in H.
  match type of H with
  | context [for_each ?f ?l ?s] =>
      destruct (for_each f l s) as [[cs st2]| |] eqn:E; simpl in H; try done
  end.
  inversion H; subst. split; [done |].
  apply (for_each_built _ _ IH) in E as [Hcs B].
  rewrite preorder_unfold. simpl children.
  change (?x :: ?l) with ([x] ++ l). eapply built_app; [|exact B].
  split; simpl; auto.
  - rewrite Nat.add_1_r. done.
  - constructor; [|done]. split_and!; simpl; [|done|done].
    rewrite Hu. apply bool_decide_ext. split; congruence.
Qed.

End Built.

(** ** Parent chains inside one group of records *)

Section Lineage.

Variable items : list MenuItem.
Hypothesis unique_ids : NoDup (id <$> items).

Lemma id_inj x y : x ∈ items → y ∈ items → id x = id y → x = y.
Proof.
  intros Hx Hy Heq. revert unique_ids Hx Hy.
  induction items as [|z l IH]; simpl; intros Hnd Hx Hy.
  - by apply elem_of_nil in Hx.
  - apply NoDup_cons in Hnd as [Hz Hnd].
    apply elem_of_cons in Hx as [->|Hx]; apply elem_of_cons in Hy as [->|Hy];
      auto.
    + exfalso. apply Hz. rewrite Heq. by apply list_elem_of_fmap_2.
    + exfalso. apply Hz. rewrite <- Heq. by apply list_elem_of_fmap_2.
Qed.

Lemma items_nodup : NoDup items.
Proof. eapply NoDup_fmap_1, unique_ids. Qed.

Lemma lineage_head x l : lineage items x l → ∃ l', l = x :: l'.
Proof. destruct 1; eauto. Qed.

Lemma lineage_fun x l1 l2 : lineage items x l1 → lineage items x l2 → l1 = l2.
Proof.
  intros H. revert l2. induction H as [x Hx|x y l Hx Hy Hl IH]; intros l2 H2.
  - inversion H2; subst; [done | congruence].
  - inversion H2 as [|? y' l' Hx' Hy' Hl']; subst; [congruence |].
    assert (y' = y) as -> by (apply id_inj; congruence).
    f_equal. by apply IH.
Qed.

Lemma lineage_suffix x pre z suf :
  lineage items x (pre ++ z :: suf) → lineage items z (z :: suf).
Proof.
  intros H. remember (pre ++ z :: suf) as l eqn:El. revert pre El.
  induction H as [x Hx|x y l Hx Hy Hl IH]; intros pre El.
  - destruct pre as [|p [|? ?]]; simplify_eq/=. by constructor.
  - destruct pre as [|p pre]; simplify_eq/=.
    + eapply lineage_step; eauto.
    + by eapply IH.
Qed.

Lemma lineage_elem x l z : lineage items x l → z ∈ l → ∃ l', lineage items z l'.
Proof.
  intros H Hz. apply list_elem_of_split in Hz as (pre & suf & ->).
  eauto using lineage_suffix.
Qed.

Lemma lineage_in_items x l z :
  x ∈ items → lineage items x l → z ∈ l → z ∈ items.
Proof.
  intros Hx H. revert Hx. induction H as [x Hp|x y l Hp Hy Hl IH]; intros Hx Hz.
  - by apply list_elem_of_singleton in Hz as ->.
  - apply elem_of_cons in Hz as [->|Hz]; auto.
Qed.

Lemma lineage_nodup x l : lineage items x l → NoDup l.
Proof.
  induction 1 as [x Hx|x y l Hx Hy Hl IH].
  - apply NoDup_singleton.
  - apply NoDup_cons. split; [|done]. intros Hin.
    apply list_elem_of_split in Hin as (pre & suf & ->).
    pose proof (lineage_suffix _ _ _ _ Hl) as Hs.
    assert (lineage items x (x :: pre ++ x :: suf)) as Hfull
      by (econstructor; eauto).
    pose proof (lineage_fun _ _ _ Hs Hfull) as Heq.
    apply (f_equal length) in Heq. simpl in Heq.
    rewrite length_app in Heq. simpl in Heq. lia.
Qed.

Lemma lineage_length x l : x ∈ items → lineage items x l → length l ≤ length items.
Proof.
  intros Hx H. apply submseteq_length, NoDup_submseteq.
  - by eapply lineage_nodup.
  - intros z Hz. by eapply lineage_in_items.
Qed.

(** No record is below itself. *)
Lemma lineage_acyclic x pre l :
  lineage items x (x :: l) → lineage items x (pre ++ x :: l) → pre = [].
Proof.
  intros H1 H2. pose proof (lineage_fun _ _ _ H1 H2) as Heq.
  destruct pre; [done |]. apply (f_equal length) in Heq. simpl in Heq.
  rewrite length_app in Heq. simpl in Heq. lia.
Qed.

End Lineage.

(** ** The shape of the tree over records with unique ids *)

Section Shape.

Variable reverse : string → exn + string.
Variable current_path : string.
Variable items : list MenuItem.
Hypothesis unique_ids : NoDup (id <$> items).

#[local] Abbreviation fresh :=
  (fresh_node reverse (build_tree items) current_path).

Lemma forest_tidy cs L :
  Forall (tidy reverse current_path items) cs → Forall (rooted items L) cs →
  Forall fresh (nodes cs) →
  NoDup (item <$> cs) →
  NoDup (item <$> nodes cs)
  ∧ ∀ m, m ∈ nodes cs → ∃ c, c ∈ cs ∧ m ∈ preorder c ∧ below items L c m.
Proof.
  induction cs as [|c cs IH]; intros Ht Hr Hf Hnd.
  - split; [constructor | intros m Hm; by apply elem_of_nil in Hm].
  - apply Forall_cons in Ht as [Htc Ht]. apply Forall_cons in Hr as [Hrc Hr].
    rewrite nodes_cons in Hf. apply Forall_app in Hf as [Hfc Hf].
    rewrite fmap_cons in Hnd. apply NoDup_cons in Hnd as [Hc Hnd].
    destruct (Htc L Hrc Hfc) as [Hndc Hbc].
    destruct (IH Ht Hr Hf Hnd) as [Hnds Hbs].
    rewrite nodes_cons. split.
    + rewrite fmap_app. apply NoDup_app. split_and!; [done | | done].
      intros x Hx1 Hx2.
      apply list_elem_of_fmap in Hx1 as (m1 & -> & Hm1).
      apply list_elem_of_fmap in Hx2 as (m2 & Heq & Hm2).
      destruct (Hbc m1 Hm1) as [_ [pre1 Hl1]].
      destruct (Hbs m2 Hm2) as (c2 & Hc2 & _ & _ & pre2 & Hl2).
      rewrite <- Heq in Hl2.
      pose proof (lineage_fun _ unique_ids _ _ _ Hl1 Hl2) as Hpp.
      apply app_inj_2 in Hpp as [_ Hpp]; [|done].
      apply Hc. inversion Hpp as [Hcc]. rewrite Hcc.
      by apply list_elem_of_fmap_2.
    + intros m Hm. apply elem_of_app in Hm as [Hm|Hm].
      * exists c. split_and!; [left | done | by apply Hbc].
      * destruct (Hbs m Hm) as (c2 & Hc2 & Hm2 & Hb2).
        exists c2. split_and!; [by right | done | done].
Qed.

Lemma node_tidy n : tidy reverse current_path items n.
Proof.
  induction n as [r it cs a o IH] using Node_nested_ind.
  intros L [Hin Hlin] Hf. simpl in Hin, Hlin.
  rewrite preorder_unfold in *. simpl children in *.
  apply Forall_cons in Hf as [(_ & _ & Hcs) Hf]. simpl in Hcs.
  assert (Forall (rooted items (it :: L)) cs) as Hr.
  { apply Forall_forall. intros c Hc.
    assert (item c ∈ tree_get (build_tree items) (Some (id it))) as Hic
      by (rewrite <- Hcs; by apply list_elem_of_fmap_2).
    apply elem_of_tree_get in Hic as [Hci Hcp].
    split; [done |]. by eapply lineage_step. }
  assert (NoDup (item <$> cs)) as Hnd.
  { rewrite Hcs, tree_get_build_tree, sort_items_perm.
    apply NoDup_filter. by apply items_nodup. }
  destruct (forest_tidy cs (it :: L) IH Hr Hf Hnd) as [Hnds Hbs].
  split.
  - rewrite fmap_cons. apply NoDup_cons. split; [|done]. simpl.
    intros Hit. apply list_elem_of_fmap in Hit as (m & Hm & Hmn).
    destruct (Hbs m Hmn) as (c & _ & _ & _ & pre & Hl).
    rewrite <- Hm in Hl.
    replace (pre ++ item c :: it :: L) with ((pre ++ [item c]) ++ it :: L) in Hl
      by (by rewrite <- app_assoc).
    apply (lineage_acyclic _ unique_ids) in Hl; [|done].
    by destruct pre.
  - intros m Hm. apply elem_of_cons in Hm as [->|Hm].
    + split; [done |]. by exists [].
    + destruct (Hbs m Hm) as (c & _ & _ & Hmi & pre & Hl).
      split; [done |]. exists (pre ++ [item c]). by rewrite <- app_assoc.
Qed.

End Shape.

(** ** Termination *)

Lemma for_each_total {A B} (f : A → State → result (B * State)) l :
  (∀ x, x ∈ l → ∀ st, ∃ y st', f x st = Ok (y, st')) →
  ∀ st, ∃ ys st', for_each f l st = Ok (ys, st').
Proof.
  induction l as [|x l IH]; intros Hf st; simpl; [eauto |].
  destruct (Hf x (list_elem_of_here _ _) st) as (y & st1 & ->). simpl.
  destruct (IH (fun z Hz => Hf z (list_elem_of_further _ _ _ Hz)) st1)
    as (ys & st2 & ->).
  simpl. eauto.
Qed.

Section Termination.

Variable reverse : string → exn + string.
Variable current_path : string.
Variable items : list MenuItem.
Hypothesis unique_ids : NoDup (id <$> items).

(** The recursion is as deep as the chain of parents is long, and a chain has
    no more records than the group. *)
Lemma build_subtree_total fuel it L st :
  it ∈ items → lineage items it L → length items < fuel + length L →
  ∃ n st',
    build_subtree reverse (build_tree items) current_path fuel it st
    = Ok (n, st').
Proof.
  revert it L st. induction fuel as [|fuel IH]; intros it L st Hin Hl Hlen.
  - pose proof (lineage_length _ unique_ids _ _ Hin Hl). simpl in Hlen. lia.
  - simpl. destruct (get_absolute_url_total reverse it) as [u ->]. simpl.
    match goal with
    | |- context [for_each ?f ?l ?s] =>
        destruct (for_each_total f l) with (st := s) as (cs & st2 & ->)
    end; [|simpl; eauto].
    intros c Hc st1. apply elem_of_tree_get in Hc as [Hci Hcp].
    apply (IH c (c :: L)); [done | by eapply lineage_step |].
    simpl. lia.
Qed.

Lemma roots_total fuel st :
  length items ≤ fuel →
  ∃ forest st',
    for_each (build_subtree reverse (build_tree items) current_path fuel)
             (tree_get (build_tree items) None) st
    = Ok (forest, st').
Proof.
  intros Hfuel. apply for_each_total. intros x Hx st1.
  apply elem_of_tree_get in Hx as [Hxi Hxp].
  apply (build_subtree_total fuel x [x]); [done | by constructor |].
  simpl. lia.
Qed.

End Termination.

(** ** The records of the tree *)

Section Assembled.

Variable reverse : string → exn + string.
Variable current_path : string.
Variable items : list MenuItem.
Hypothesis unique_ids : NoDup (id <$> items).

Variable fuel : nat.
Variables (forest : list Node) (st0 st : State).
Hypothesis run :
  for_each (build_subtree reverse (build_tree items) current_path fuel)
           (tree_get (build_tree items) None) st0
  = Ok (forest, st).

Lemma run_built :
  item <$> forest = tree_get (build_tree items) None
  ∧ built reverse (build_tree items) current_path st0 (nodes forest) st.
Proof.
  eapply for_each_built; [|exact run]. apply build_subtree_built.
Qed.

Lemma run_tidy :
  NoDup (item <$> nodes forest)
  ∧ ∀ m, m ∈ nodes forest → ∃ c, c ∈ forest ∧ m ∈ preorder c ∧ below items [] c m.
Proof.
  destruct run_built as [Hroots B].
  apply (forest_tidy reverse current_path items unique_ids).
  - apply Forall_forall. intros n _. by apply node_tidy.
  - apply Forall_forall. intros c Hc.
    assert (item c ∈ tree_get (build_tree items) None) as Hic
      by (rewrite <- Hroots; by apply list_elem_of_fmap_2).
    apply elem_of_tree_get in Hic as [Hci Hcp]. split; [done | by constructor].
  - apply B.
  - rewrite Hroots, tree_get_build_tree, sort_items_perm.
    apply NoDup_filter. by apply items_nodup.
Qed.

Lemma node_lineage m :
  m ∈ nodes forest → item m ∈ items ∧ ∃ L, lineage items (item m) L.
Proof.
  intros Hm. destruct run_tidy as [_ Hb].
  destruct (Hb m Hm) as (c & _ & _ & Hi & pre & Hl). eauto.
Qed.

Lemma lineage_node x L :
  x ∈ items → lineage items x L → ∃ m, m ∈ nodes forest ∧ item m = x.
Proof.
  destruct run_built as [Hroots B]. intros Hx Hl. revert Hx.
  induction Hl as [x Hp|x y l Hp Hy Hl IH]; intros Hx.
  - assert (x ∈ item <$> forest) as Hin
      by (rewrite Hroots; by apply elem_of_tree_get).
    apply list_elem_of_fmap in Hin as (n & -> & Hn).
    exists n. split; [|done]. apply elem_of_nodes. exists n.
    split; [done | apply preorder_self].
  - destruct (IH Hy) as (m & Hm & <-).
    pose proof (built_fresh _ _ _ _ _ _ B) as Hf.
    rewrite Forall_forall in Hf. destruct (Hf m Hm) as (_ & _ & Hcs).
    assert (x ∈ item <$> children m) as Hin
      by (rewrite Hcs; by apply elem_of_tree_get).
    apply list_elem_of_fmap in Hin as (c & -> & Hc).
    exists c. split; [|done]. by eapply child_in_nodes.
Qed.

Lemma elem_of_run x :
  x ∈ item <$> nodes forest ↔ x ∈ items ∧ ∃ L, lineage items x L.
Proof.
  split.
  - intros Hx. apply list_elem_of_fmap in Hx as (m & -> & Hm).
    by apply node_lineage.
  - intros (Hx & L & Hl). destruct (lineage_node x L Hx Hl) as (m & Hm & <-).
    by apply list_elem_of_fmap_2.
Qed.

Lemma run_unique_ids : NoDup (id <$> (item <$> nodes forest)).
Proof.
  destruct run_tidy as [Hnd _]. apply NoDup_fmap_2_strong; [|done].
  intros x y Hx Hy. apply elem_of_run in Hx as [Hx _].
  apply elem_of_run in Hy as [Hy _]. by apply (id_inj items unique_ids).
Qed.

End Assembled.

(** ** [node_map] and the active item after the traversal *)

Lemma record_node_other ns nm k :
  k ∉ id <$> (item <$> ns) → foldl record_node nm ns !! k = nm !! k.
Proof.
  revert nm. induction ns as [|n ns IH]; intros nm Hk; simpl; [done |].
  rewrite !fmap_cons, not_elem_of_cons in Hk. destruct Hk as [Hne Hk].
  rewrite IH by done. unfold record_node. by rewrite lookup_insert_ne.
Qed.

Lemma record_node_lookup ns nm m :
  NoDup (id <$> (item <$> ns)) → m ∈ ns →
  foldl record_node nm ns !! id (item m) = Some (ref m).
Proof.
  revert nm. induction ns as [|n ns IH]; intros nm Hnd Hm.
  - by apply elem_of_nil in Hm.
  - rewrite !fmap_cons in Hnd. apply NoDup_cons in Hnd as [Hn Hnd]. simpl.
    apply elem_of_cons in Hm as [->|Hm]; [|by apply IH].
    rewrite record_node_other by done. apply lookup_insert_eq.
Qed.

Lemma record_node_lookup_inv ns nm k r :
  foldl record_node nm ns !! k = Some r →
  nm !! k = Some r ∨ ∃ m, m ∈ ns ∧ id (item m) = k ∧ ref m = r.
Proof.
  revert nm. induction ns as [|n ns IH]; intros nm H; simpl in H; [by left |].
  apply IH in H as [H|(m & Hm & Hk & Hr)].
  - unfold record_node in H. destruct (decide (id (item n) = k)) as [<-|Hne].
    + rewrite lookup_insert_eq in H. right. exists n.
      split_and!; [left | done | congruence].
    + rewrite lookup_insert_ne in H by done. by left.
  - right. exists m. split_and!; [by right | done | done].
Qed.

Lemma pick_active_last ns acc :
  foldl pick_active acc ns
  = match last (filter (fun n => active n = true) ns) with
    | Some m => Some (item m)
    | None => acc
    end.
Proof.
  revert acc. induction ns as [|n ns IH]; intros acc; simpl; [done |].
  rewrite IH, filter_cons. unfold pick_active.
  destruct (decide (active n = true)) as [E|E].
  - rewrite E, last_cons. by destruct (last (filter _ ns)).
  - by apply not_true_is_false in E as ->.
Qed.

Lemma fmap_nodup_inj {A B} (f : A → B) (l : list A) x y :
  NoDup (f <$> l) → x ∈ l → y ∈ l → f x = f y → x = y.
Proof.
  induction l as [|z l IH]; intros Hnd Hx Hy Heq.
  - by apply elem_of_nil in Hx.
  - rewrite fmap_cons in Hnd. apply NoDup_cons in Hnd as [Hz Hnd].
    apply elem_of_cons in Hx as [->|Hx]; apply elem_of_cons in Hy as [->|Hy];
      auto.
    + exfalso. apply Hz. rewrite Heq. by apply list_elem_of_fmap_2.
    + exfalso. apply Hz. rewrite <- Heq. by apply list_elem_of_fmap_2.
Qed.

(** ** Opening nodes through their references *)

Lemma open_refs_nil n : open_refs [] n = n.
Proof.
  induction n as [r i cs a o IH] using Node_nested_ind. cbn [open_refs].
  rewrite decide_False by apply not_elem_of_nil. f_equal.
  induction IH as [|c cs Hc _ IHcs]; [done |]. rewrite fmap_cons. congruence.
Qed.

Lemma open_refs_set_open r rs n :
  open_refs rs (set_open r n) = open_refs (r :: rs) n.
Proof.
  induction n as [r' i cs a o IH] using Node_nested_ind.
  cbn [open_refs set_open]. f_equal.
  - rewrite <- list_fmap_compose. apply Forall_fmap_ext_1.
    eapply Forall_impl; [exact IH |]. done.
  - destruct (decide (r' ∈ r :: rs)) as [Hin|Hin].
    + apply elem_of_cons in Hin as [->|Hin].
      * rewrite (decide_True (P := r = r)) by done. by case_decide.
      * by rewrite decide_True by done.
    + apply not_elem_of_cons in Hin as [Hne Hin].
      by rewrite !decide_False by done.
Qed.

Lemma foldl_open_by_id nm keys rs forest :
  open_refs rs <$> foldl (open_by_id nm) forest keys
  = open_refs (found_refs nm keys ++ rs) <$> forest.
Proof.
  revert forest. induction keys as [|k keys IH]; intros forest; [done |].
  simpl. rewrite IH. unfold open_by_id, found_refs. simpl.
  destruct (nm !! k) as [r|] eqn:E; simpl; [|done].
  rewrite <- list_fmap_compose. apply list_fmap_ext. intros i n _. simpl.
  apply open_refs_set_open.
Qed.

Lemma open_by_id_refs nm keys forest :
  foldl (open_by_id nm) forest keys = open_refs (found_refs nm keys) <$> forest.
Proof.
  rewrite <- (app_nil_r (found_refs nm keys)), <- foldl_open_by_id.
  rewrite <- (list_fmap_id (foldl _ _ _)) at 1.
  apply list_fmap_ext. intros _ n _. symmetry. apply open_refs_nil.
Qed.

Lemma elem_of_found_refs nm keys r :
  r ∈ found_refs nm keys ↔ ∃ k, k ∈ keys ∧ nm !! k = Some r.
Proof. apply list_elem_of_omap. Qed.

Lemma ref_open_refs rs n : ref (open_refs rs n) = ref n.
Proof. by destruct n. Qed.

Lemma item_open_refs rs n : item (open_refs rs n) = item n.
Proof. by destruct n. Qed.

Lemma active_open_refs rs n : active (open_refs rs n) = active n.
Proof. by destruct n. Qed.

Lemma children_open_refs rs n :
  children (open_refs rs n) = open_refs rs <$> children n.
Proof. by destruct n. Qed.

Lemma open_open_refs rs n :
  open (open_refs rs n) = true ↔ ref n ∈ rs ∨ open n = true.
Proof.
  destruct n as [r i cs a o]. simpl. case_decide; [tauto |].
  split; [auto | intros [?|?]; done].
Qed.

Lemma preorder_open_refs rs n :
  preorder (open_refs rs n) = open_refs rs <$> preorder n.
Proof.
  induction n as [r i cs a o IH] using Node_nested_ind.
  rewrite !preorder_unfold, fmap_cons. f_equal.
  rewrite children_open_refs. simpl children. unfold nodes.
  induction IH as [|c cs Hc _ IHcs]; [done |].
  rewrite fmap_cons, !bind_cons, fmap_app. congruence.
Qed.

Lemma nodes_open_refs rs forest :
  nodes (open_refs rs <$> forest) = open_refs rs <$> nodes forest.
Proof.
  unfold nodes. induction forest as [|n forest IH]; [done |].
  rewrite fmap_cons, !bind_cons, fmap_app, preorder_open_refs. congruence.
Qed.

Lemma filter_active_open_refs rs (ns : list Node) :
  filter (fun n => active n = true) (open_refs rs <$> ns)
  = open_refs rs <$> filter (fun n => active n = true) ns.
Proof.
  induction ns as [|n ns IH]; [done |].
  rewrite fmap_cons, !filter_cons, active_open_refs, IH.
  by case_decide.
Qed.

(** ** [ancestors] follows the chain of parents *)

Section Ancestors.

Variables table items : list MenuItem.
Hypothesis table_ids : NoDup (id <$> table).
Hypothesis items_table : items ⊆ table.

Lemma find_by_id y :
  y ∈ table → List.find (fun r => bool_decide (id r = id y)) table = Some y.
Proof.
  intros Hy. destruct (List.find _ table) as [z|] eqn:E.
  - apply find_some in E as [Hz Hid]. apply bool_decide_eq_true in Hid.
    f_equal. apply list_elem_of_In in Hz.
    by apply (fmap_nodup_inj id table).
  - eapply find_none in E; [|by apply list_elem_of_In].
    by rewrite bool_decide_eq_false in E.
Qed.

Lemma ancestors_loop_lineage fuel y L :
  y ∈ items → lineage items y L → length L ≤ fuel →
  ancestors_loop fuel table (Some y) = Ok L.
Proof.
  intros Hy Hl. revert fuel Hy.
  induction Hl as [y Hp|y z l Hp Hz Hl IH]; intros fuel Hy Hlen;
    (destruct fuel as [|fuel]; simpl in Hlen; [lia |]); simpl; unfold parent;
    rewrite Hp.
  - by destruct fuel.
  - rewrite find_by_id by auto. simpl. rewrite IH by (done || lia). done.
Qed.

Lemma ancestors_lineage fuel x l :
  x ∈ items → lineage items x (x :: l) → length l ≤ fuel →
  ancestors fuel table x = Ok l.
Proof.
  intros Hx Hl Hlen. unfold ancestors, parent.
  inversion Hl as [? Hp|? y l' Hp Hy Hl']; subst; rewrite Hp; simpl.
  - by destruct fuel.
  - rewrite find_by_id by auto. simpl. by apply ancestors_loop_lineage.
Qed.

End Ancestors.

(** ** Parents in the tree and parents in the records *)

Section Paths.

Variable reverse : string → exn + string.
Variable current_path : string.
Variable items : list MenuItem.
Hypothesis unique_ids : NoDup (id <$> items).

#[local] Abbreviation fresh' :=
  (fresh_node reverse (build_tree items) current_path).

Lemma children_rooted L n :
  fresh' n → rooted items L n → Forall (rooted items (item n :: L)) (children n).
Proof.
  intros (_ & _ & Hcs) [Hin Hlin]. apply Forall_forall. intros c Hc.
  assert (item c ∈ tree_get (build_tree items) (Some (id (item n)))) as Hic
    by (rewrite <- Hcs; by apply list_elem_of_fmap_2).
  apply elem_of_tree_get in Hic as [Hci Hcp].
  split; [done |]. by eapply lineage_step.
Qed.

(** Every record on the chain of [na] that is not above [n] has its node on
    the way from [n] down to [na]. *)
Lemma path_nodes n :
  ∀ L na La x,
    rooted items L n → Forall fresh' (preorder n) → na ∈ preorder n →
    lineage items (item na) La → x ∈ La →
    x ∈ L ∨ ∃ m, m ∈ preorder n ∧ item m = x ∧ na ∈ preorder m.
Proof.
  induction n as [r it cs a o IH] using Node_nested_ind.
  intros L na La x Hr Hf Hna HLa Hx.
  pose proof Hr as [Hin Hlin]. simpl in Hin, Hlin.
  rewrite preorder_unfold in Hf. simpl children in Hf.
  apply Forall_cons in Hf as [Hfn Hf].
  apply elem_of_preorder in Hna as [->|(c & Hc & Hna)].
  - simpl in HLa. rewrite (lineage_fun _ unique_ids _ _ _ HLa Hlin) in Hx.
    apply elem_of_cons in Hx as [->|Hx]; [|by left].
    right. eexists. split_and!; [apply preorder_self | done | apply preorder_self].
  - simpl in Hc. rewrite Forall_forall in IH.
    pose proof (children_rooted L _ Hfn Hr) as Hrc.
    rewrite Forall_forall in Hrc. specialize (Hrc c Hc). simpl in Hrc.
    assert (Forall fresh' (preorder c)) as Hfc.
    { apply Forall_forall. intros m Hm. rewrite Forall_forall in Hf.
      apply Hf, elem_of_nodes. eauto. }
    destruct (IH c Hc (it :: L) na La x Hrc Hfc Hna HLa Hx)
      as [Hx'|(m & Hm & Hmx & Hnam)].
    + apply elem_of_cons in Hx' as [->|Hx']; [|by left].
      right. eexists. split_and!; [apply preorder_self | done |].
      apply elem_of_preorder. right. eauto.
    + right. exists m. split_and!; [|done|done].
      apply elem_of_preorder. right. eauto.
Qed.

End Paths.

(** ** Which nodes are opened *)

Section Marked.

Variable reverse : string → exn + string.
Variable current_path : string.
Variable items : list MenuItem.
Hypothesis unique_ids : NoDup (id <$> items).

Variable fuel : nat.
Variables (forest : list Node) (st : State).
Hypothesis run :
  for_each (build_subtree reverse (build_tree items) current_path fuel)
           (tree_get (build_tree items) None) init_state
  = Ok (forest, st).

#[local] Abbreviation fresh'' :=
  (fresh_node reverse (build_tree items) current_path).

Lemma run_fresh m : m ∈ nodes forest → fresh'' m.
Proof.
  destruct (run_built _ _ _ _ _ _ _ run) as [_ B].
  pose proof (built_fresh _ _ _ _ _ _ B) as Hf.
  rewrite Forall_forall in Hf. apply Hf.
Qed.

Lemma run_fresh_subtree m : m ∈ nodes forest → Forall fresh'' (preorder m).
Proof.
  intros Hm. apply Forall_forall. intros k Hk. apply run_fresh.
  apply elem_of_nodes in Hm as (n & Hn & Hm). apply elem_of_nodes.
  exists n. split; [done |]. by eapply preorder_trans.
Qed.

Lemma run_refs m1 m2 :
  m1 ∈ nodes forest → m2 ∈ nodes forest → ref m1 = ref m2 → m1 = m2.
Proof.
  destruct (run_built _ _ _ _ _ _ _ run) as [_ B].
  apply fmap_nodup_inj. rewrite (built_refs _ _ _ _ _ _ B). apply NoDup_seq.
Qed.

Lemma run_items m1 m2 :
  m1 ∈ nodes forest → m2 ∈ nodes forest → item m1 = item m2 → m1 = m2.
Proof.
  apply fmap_nodup_inj.
  by destruct (run_tidy _ _ _ unique_ids _ _ _ _ run).
Qed.

(** [node_map.get] finds the node of a record by the record's id. *)
Lemma found_refs_ids keys m :
  m ∈ nodes forest →
  ref m ∈ found_refs (node_map st) keys ↔ id (item m) ∈ keys.
Proof.
  intros Hm. destruct (run_built _ _ _ _ _ _ _ run) as [_ B].
  rewrite elem_of_found_refs, (built_map _ _ _ _ _ _ B). simpl. split.
  - intros (k & Hk & Hlook).
    apply record_node_lookup_inv in Hlook as [Hlook|(m0 & Hm0 & <- & Hr)].
    + by rewrite lookup_empty in Hlook.
    + by rewrite <- (run_refs m0 m Hm0 Hm Hr).
  - intros Hk. exists (id (item m)). split; [done |].
    apply record_node_lookup; [|done].
    by eapply run_unique_ids.
Qed.

Lemma roots_rooted c : c ∈ forest → rooted items [] c.
Proof.
  intros Hc. destruct (run_built _ _ _ _ _ _ _ run) as [Hroots _].
  assert (item c ∈ tree_get (build_tree items) None) as Hic
    by (rewrite <- Hroots; by apply list_elem_of_fmap_2).
  apply elem_of_tree_get in Hic as [Hci Hcp]. split; [done | by constructor].
Qed.

(** The records on the chain of [na] are those of the nodes whose subtree
    holds [na]. *)
Lemma lineage_subtree m na La :
  m ∈ nodes forest → na ∈ nodes forest → lineage items (item na) La →
  item m ∈ La ↔ na ∈ preorder m.
Proof.
  intros Hm Hna HLa. split.
  - intros Hin. apply elem_of_nodes in Hna as (c & Hc & Hna).
    destruct (path_nodes reverse current_path items unique_ids c
                [] na La (item m)) as [Hnil|(m0 & Hm0 & Heq & Hsub)];
      auto using roots_rooted.
    + apply run_fresh_subtree, elem_of_nodes. eauto using preorder_self.
    + by apply elem_of_nil in Hnil.
    + assert (m0 = m) as <-; [|done].
      apply run_items; [|done|done]. apply elem_of_nodes. eauto.
  - intros Hsub.
    destruct (node_lineage _ _ _ unique_ids _ _ _ _ run m Hm) as (Hmi & Lm & HLm).
    destruct (lineage_head _ _ _ HLm) as [L' ->].
    destruct (node_tidy reverse current_path items unique_ids m L')
      as [_ Hb]; [done | by apply run_fresh_subtree |].
    destruct (Hb na Hsub) as [_ [pre Hpre]].
    rewrite (lineage_fun _ unique_ids _ _ _ HLa Hpre).
    apply elem_of_app. right. left.
Qed.

End Marked.

(** ** The result of [draw_menu] on stored records *)

Lemma stored_unique_ids table items : stored table items → NoDup (id <$> items).
Proof.
  intros (Ht & Hsub & Hnd). apply NoDup_fmap_2_strong; [|done].
  intros x y Hx Hy. apply (fmap_nodup_inj id table); auto.
Qed.

Section Body.

Variable reverse : string → exn + string.
Variable current_path : string.
Variables table items : list MenuItem.
Variable fuel : nat.
Hypothesis Hstored : stored table items.
Hypothesis Hfuel : length items ≤ fuel.

Lemma draw_menu_body_spec :
  ∃ forest st rs cache,
    for_each (build_subtree reverse (build_tree items) current_path fuel)
             (tree_get (build_tree items) None) init_state
    = Ok (forest, st)
    ∧ draw_menu_body reverse fuel table current_path items
      = Ok {| menu_tree := open_refs rs <$> forest; cached_ancestors := cache |}
    ∧ (∀ m, m ∈ nodes forest →
            ref m ∈ rs ↔ ∃ na, last (matches forest) = Some na ∧ na ∈ preorder m)
    ∧ match cache with
      | None => last (matches forest) = None
      | Some (a, l) =>
          lineage items a (a :: l)
          ∧ ∃ na, last (matches forest) = Some na ∧ item na = a
      end.
Proof.
  pose proof (stored_unique_ids _ _ Hstored) as Hids.
  destruct Hstored as (Htable & Hsub & _).
  destruct (roots_total reverse current_path items Hids fuel init_state Hfuel)
    as (forest & st & Hrun).
  destruct (run_built _ _ _ _ _ _ _ Hrun) as [_ B].
  pose proof (built_active _ _ _ _ _ _ B) as Hact.
  rewrite pick_active_last in Hact. fold (matches forest) in Hact.
  unfold draw_menu_body. rewrite Hrun. simpl. rewrite Hact.
  destruct (last (matches forest)) as [na|] eqn:Elast.
  - assert (na ∈ nodes forest) as Hna.
    { apply last_Some_elem_of in Elast. unfold matches in Elast.
      by apply list_elem_of_filter in Elast as [_ ?]. }
    destruct (node_lineage _ _ _ Hids _ _ _ _ Hrun na Hna) as (Hai & La & HLa).
    destruct (lineage_head _ _ _ HLa) as [l ->].
    rewrite (ancestors_lineage table items Htable Hsub fuel (item na) l);
      [|done|done|].
    2:{ pose proof (lineage_length _ Hids _ _ Hai HLa) as Hlen.
        simpl in Hlen. lia. }
    simpl.
    exists forest, st,
      (found_refs (node_map st) ((id <$> l) ++ [id (item na)])),
      (Some (item na, l)).
    split_and!; [done | | | done | by eauto].
    + do 2 f_equal.
      rewrite <- open_by_id_refs, foldl_app. done.
    + intros m Hm.
      rewrite (found_refs_ids _ _ _ Hids _ _ _ Hrun) by done.
      pose proof (lineage_subtree _ _ _ Hids _ _ _ Hrun m na _ Hm Hna HLa)
        as Hpath.
      split.
      * intros Hk.
        assert (id (item m) ∈ id <$> (item na :: l)) as Hk'.
        { rewrite fmap_cons. apply elem_of_app in Hk as [Hk|Hk].
          - by right.
          - apply list_elem_of_singleton in Hk as ->. left. }
        apply list_elem_of_fmap in Hk' as (z & Hz & Hzl).
        exists na. split; [done |]. apply Hpath.
        assert (item m = z) as ->; [|done].
        apply (id_inj items Hids); [|by eapply lineage_in_items|done].
        by destruct (node_lineage _ _ _ Hids _ _ _ _ Hrun m Hm).
      * intros (na' & Hna' & Hin). simplify_eq. apply Hpath in Hin.
        apply elem_of_cons in Hin as [->|Hin].
        -- apply elem_of_app. right. left.
        -- apply elem_of_app. left. by apply list_elem_of_fmap_2.
  - exists forest, st, [], None. split_and!; [done | | | done].
    + do 2 f_equal. rewrite <- (list_fmap_id forest) at 1.
      apply list_fmap_ext. intros _ n _. symmetry. apply open_refs_nil.
    + intros m _. split; [intros H; by apply elem_of_nil in H |].
      intros (na & Hn & _). congruence.
Qed.

End Body.

(** ** The returned tree and the tree of the traversal *)

Lemma elem_of_nodes_open_refs rs forest n' :
  n' ∈ nodes (open_refs rs <$> forest)
  ↔ ∃ n, n ∈ nodes forest ∧ n' = open_refs rs n.
Proof.
  rewrite nodes_open_refs, list_elem_of_fmap.
  split; intros (n & ? & ?); eauto.
Qed.

Lemma matches_open_refs rs forest :
  matches (open_refs rs <$> forest) = open_refs rs <$> matches forest.
Proof. unfold matches. by rewrite nodes_open_refs, filter_active_open_refs. Qed.

Lemma fmap_item_open_refs rs (l : list Node) :
  item <$> (open_refs rs <$> l) = item <$> l.
Proof.
  induction l as [|n l IH]; [done |].
  by rewrite !fmap_cons, item_open_refs, IH.
Qed.

(** Whatever the records are, the returned tree is the tree of the traversal
    with some of its nodes opened. *)
Lemma draw_menu_body_shape reverse fuel table current_path items res :
  draw_menu_body reverse fuel table current_path items = Ok res →
  ∃ forest st rs,
    for_each (build_subtree reverse (build_tree items) current_path fuel)
             (tree_get (build_tree items) None) init_state
    = Ok (forest, st)
    ∧ menu_tree res = open_refs rs <$> forest.
Proof.
  unfold draw_menu_body. intros H.
  match type of H with
  | context [for_each ?f ?l ?s] =>
      destruct (for_each f l s) as [[forest st]| |] eqn:E; simpl in H; try done
  end.
  exists forest, st. destruct (active_item st) as [a|].
  - destruct (ancestors fuel table a) as [ancs| |]; simpl in H; try done.
    inversion H; subst; simpl.
    exists (found_refs (node_map st) ((id <$> ancs) ++ [id a])).
    split; [done |]. by rewrite <- open_by_id_refs, foldl_app.
  - inversion H; subst; simpl. exists []. split; [done |].
    rewrite <- (list_fmap_id forest) at 1.
    apply list_fmap_ext. intros _ n _. symmetry. apply open_refs_nil.
Qed.

Lemma filter_none {A} (P : A → Prop) `{∀ x, Decision (P x)} (l : list A) :
  (∀ x, x ∈ l → ¬ P x) → filter P l = [].
Proof.
  induction l as [|x l IH]; intros Hl; [done |].
  rewrite filter_cons, decide_False by (apply Hl; left).
  apply IH. intros y Hy. apply Hl. by right.
Qed.

(** ** Cycles and orphans *)

Section Reach.

Variable items : list MenuItem.
Hypothesis unique_ids : NoDup (id <$> items).

Lemma lineage_parent x y L :
  lineage items x L → parent_in items x y →
  ∃ L', L = x :: L' ∧ lineage items y L'.
Proof.
  intros HL [Hp Hy]. inversion HL as [? Hp'|? y' l Hp' Hy' Hl]; subst.
  - congruence.
  - assert (y' = y) as -> by (apply (id_inj items unique_ids); congruence).
    eauto.
Qed.

Lemma lineage_tc x z :
  tc (parent_in items) x z →
  ∀ L, lineage items x L → ∃ L', lineage items z L' ∧ length L' < length L.
Proof.
  induction 1 as [x z Hxz|x y z Hxy _ IH]; intros L HL.
  - destruct (lineage_parent _ _ _ HL Hxz) as (L' & -> & HL').
    exists L'. split; [done | simpl; lia].
  - destruct (lineage_parent _ _ _ HL Hxy) as (L' & -> & HL').
    destruct (IH _ HL') as (L'' & HL'' & Hlen).
    exists L''. split; [done | simpl; lia].
Qed.

Lemma on_cycle_no_lineage x L : on_cycle items x → ¬ lineage items x L.
Proof.
  intros Hc HL. destruct (lineage_tc _ _ Hc _ HL) as (L' & HL' & Hlen).
  rewrite (lineage_fun _ unique_ids _ _ _ HL' HL) in Hlen. lia.
Qed.

Lemma orphan_no_lineage x L : orphan items x → ¬ lineage items x L.
Proof.
  intros (p & Hp & Hnone) HL.
  inversion HL as [? Hp'|? y l Hp' Hy Hl]; subst; [congruence |].
  apply (Hnone y Hy). congruence.
Qed.

Lemma reaches_root_sound fuel x :
  reaches_root items fuel x = true → ∃ L, lineage items x L.
Proof.
  revert x. induction fuel as [|fuel IH]; intros x; simpl;
    destruct (parent_id x) as [p|] eqn:Hp; try done;
    try (intros _; eexists; by apply lineage_root).
  destruct (List.find _ items) as [y|] eqn:E; [|done].
  apply find_some in E as [Hy Hid]. apply bool_decide_eq_true in Hid.
  apply list_elem_of_In in Hy. intros Hr. destruct (IH y Hr) as [L HL].
  exists (x :: L). eapply lineage_step; [|done|done]. congruence.
Qed.

Lemma reaches_root_complete fuel x L :
  lineage items x L → length L ≤ S fuel → reaches_root items fuel x = true.
Proof.
  intros HL. revert fuel.
  induction HL as [x Hp|x y l Hp Hy Hl IH]; intros fuel Hlen.
  - destruct fuel; simpl; by rewrite Hp.
  - destruct (lineage_head _ _ _ Hl) as [l' ->]. simpl in Hlen.
    destruct fuel as [|fuel]; [lia |]. simpl. rewrite Hp.
    rewrite (find_by_id items unique_ids) by done.
    apply IH. simpl. lia.
Qed.

Lemma reaches_root_lineage x :
  x ∈ items →
  reaches_root items (length items) x = true ↔ ∃ L, lineage items x L.
Proof.
  intros Hx. split; [apply reaches_root_sound |].
  intros [L HL]. apply (reaches_root_complete _ _ L HL).
  pose proof (lineage_length _ unique_ids _ _ Hx HL). lia.
Qed.

End Reach.

(** The records of the returned tree: those of the group whose chain of
    parents ends at a root, each in one node. *)
Lemma draw_menu_body_records reverse fuel table current_path items :
  stored table items → length items ≤ fuel →
  ∃ res,
    draw_menu_body reverse fuel table current_path items = Ok res
    ∧ NoDup (item <$> nodes (menu_tree res))
    ∧ (∀ x, x ∈ item <$> nodes (menu_tree res)
            ↔ x ∈ items ∧ ∃ L, lineage items x L)
    ∧ match cached_ancestors res with
      | None => matches (menu_tree res) = []
      | Some (a, l) =>
          lineage items a (a :: l)
          ∧ item <$> last (matches (menu_tree res)) = Some a
      end.
Proof.
  intros Hstored Hfuel.
  pose proof (stored_unique_ids _ _ Hstored) as Hids.
  destruct (draw_menu_body_spec reverse current_path table items fuel
              Hstored Hfuel) as (forest & st & rs & cache & Hrun & Hres & _ & Hc).
  eexists. split; [exact Hres |]. simpl.
  rewrite nodes_open_refs, fmap_item_open_refs, matches_open_refs.
  split_and!.
  - by destruct (run_tidy _ _ _ Hids _ _ _ _ Hrun).
  - intros x. by apply (elem_of_run _ _ _ Hids _ _ _ _ Hrun).
  - destruct cache as [[a l]|].
    + destruct Hc as (HL & na & Hlast & <-). split; [done |].
      rewrite fmap_last, Hlast. simpl. by rewrite item_open_refs.
    + apply last_None in Hc. by rewrite Hc.
Qed.

(** ** From the database to the records *)


Lemma draw_menu_fetched reverse fuel db context request menu_name menu :
  context !! "request"%string = Some (PyRequest request) →
  Menu_objects_get db menu_name = Ok menu →
  draw_menu reverse fuel db context menu_name
  = draw_menu_body reverse fuel (menu_items db) (path request)
                   (MenuItem_objects_filter db menu).
Proof. intros Hreq Hmenu. unfold draw_menu. by rewrite Hreq, Hmenu. Qed.

(** The scenario of the specification: one root with its two children in
    order; the node of ["/about"] is active and open, the root is open, the
    third node is neither. *)
Example draw_menu_scenario :
  draw_menu no_reverse 3 spec_db about_context "main_menu"
  = Ok {| menu_tree :=
            [mkNode 0 (rec 1 None 0 "/")
               [mkNode 1 (rec 2 (Some 1%Z) 0 "/about") [] true true;
                mkNode 2 (rec 3 (Some 1%Z) 1 "/contact") [] false false]
               false true];
          cached_ancestors :=
            Some (rec 2 (Some 1%Z) 0 "/about", [rec 1 None 0 "/"]) |}.
Proof. vm_compute. reflexivity. Qed.

(** ** Why the ids have to be unique *)

(** With two records of one id the recursion need not end: a record that is
    its own parent is met again and again below the root of the same id. *)
Lemma self_parent_recursion fuel st :
  build_subtree no_reverse (build_tree self_parent) "/" fuel
                (rec 1 (Some 1%Z) 0 "/x") st
  = OutOfFuel.
Proof.
  revert st. induction fuel as [|fuel IH]; intros st; [done |].
  cbn [build_subtree].
  assert (tree_get (build_tree self_parent) (Some (id (rec 1 (Some 1%Z) 0 "/x")))
          = [rec 1 (Some 1%Z) 0 "/x"]) as -> by (vm_compute; reflexivity).
  assert (get_absolute_url no_reverse (rec 1 (Some 1%Z) 0 "/x") = Ok "/x"%string)
    as -> by reflexivity.
  cbn [mbind result_bind for_each]. by rewrite IH.
Qed.

Lemma self_parent_never_returns fuel :
  draw_menu_body no_reverse fuel self_parent "/" self_parent = OutOfFuel.
Proof.
  unfold draw_menu_body.
  assert (tree_get (build_tree self_parent) None = [rec 1 None 0 "/"]) as ->
    by (vm_compute; reflexivity).
  destruct fuel as [|fuel]; [done |].
  cbn [for_each build_subtree].
  assert (tree_get (build_tree self_parent) (Some (id (rec 1 None 0 "/")))
          = [rec 1 (Some 1%Z) 0 "/x"]) as -> by (vm_compute; reflexivity).
  assert (get_absolute_url no_reverse (rec 1 None 0 "/") = Ok "/"%string)
    as -> by reflexivity.
  cbn [mbind result_bind for_each]. by rewrite self_parent_recursion.
Qed.

(** * The claims *)

(** C6. Whatever the order of the input, [build_tree] puts each record in the
    sequence keyed by its [parent_id] (and nowhere else), every sequence of
    the grouping is sorted by [(order, id)] ascending, and in a returned tree
    the roots and the children of every node are in that order. *)
Theorem siblings_sorted reverse fuel table current_path items res :
  draw_menu_body reverse fuel table current_path items = Ok res →
  (∀ x, x ∈ items →
        ∃ l, build_tree items !! parent_id x = Some l ∧ x ∈ l)
  ∧ (∀ k l, build_tree items !! k = Some l →
            Sorted item_le l
            ∧ l ≡ₚ filter (fun x => parent_id x = k) items)
  ∧ Sorted item_le (item <$> menu_tree res)
  ∧ (∀ n, n ∈ nodes (menu_tree res) → Sorted item_le (item <$> children n)).
Proof.
  intros Hres. split_and!.
  - intros x Hx.
    assert (x ∈ tree_get (build_tree items) (parent_id x)) as Hin
      by (by apply elem_of_tree_get).
    unfold tree_get in Hin. destruct (build_tree items !! parent_id x) as [l|].
    + eauto.
    + by apply elem_of_nil in Hin.
  - intros k l Hl. apply build_tree_lookup in Hl as ->.
    split; [apply sort_items_sorted | apply sort_items_perm].
  - apply draw_menu_body_shape in Hres as (forest & st & rs & Hrun & ->).
    destruct (run_built _ _ _ _ _ _ _ Hrun) as [Hroots _].
    rewrite fmap_item_open_refs, Hroots, tree_get_build_tree.
    apply sort_items_sorted.
  - apply draw_menu_body_shape in Hres as (forest & st & rs & Hrun & ->).
    intros n' Hn'. apply elem_of_nodes_open_refs in Hn' as (n & Hn & ->).
    destruct (run_fresh _ _ _ _ _ _ Hrun n Hn) as (_ & _ & Hcs).
    rewrite children_open_refs, fmap_item_open_refs, Hcs, tree_get_build_tree.
    apply sort_items_sorted.
Qed.

Lemma siblings_sorted_witness :
  ∃ res,
    draw_menu_body no_reverse 3 spec_items "/about" spec_items = Ok res
    ∧ Sorted item_le (item <$> menu_tree res)
    ∧ (∀ n, n ∈ nodes (menu_tree res) → Sorted item_le (item <$> children n)).
Proof.
  eexists. split; [vm_compute; reflexivity |].
  eapply (siblings_sorted no_reverse 3 spec_items "/about" spec_items).
  vm_compute. reflexivity.
Defined.

(** C7. [get_absolute_url] always returns a string and raises nothing,
    whatever [reverse] does: a [named_url] that resolves takes precedence
    over [url]; a [named_url] that does not resolve falls back to [url], or
    to ["#"] when [url] is blank; without [named_url] the result is [url], or
    ["#"] when [url] is blank. *)
Theorem get_absolute_url_never_raises reverse self :
  ∃ u,
    get_absolute_url reverse self = Ok u
    ∧ (named_url self ≠ ""%string →
       ∀ r, reverse (named_url self) = inr r → u = r)
    ∧ (named_url self ≠ ""%string →
       ∀ e, reverse (named_url self) = inl e →
            u = if decide (url self = ""%string) then "#"%string else url self)
    ∧ (named_url self = ""%string →
       u = if decide (url self = ""%string) then "#"%string else url self).
Proof.
  unfold get_absolute_url, str_or.
  destruct (decide (named_url self = ""%string)) as [Hn|Hn].
  - eexists. split_and!; [done | done | done | done].
  - destruct (reverse (named_url self)) as [e|r] eqn:E; simpl;
      eexists; split_and!; try done; intros; congruence.
Qed.

(** C8. With a request in the context, [draw_menu] on a menu name that no
    menu has returns the empty root sequence, and so it does on a menu
    without records; both are results, not errors. *)
Theorem unknown_menu_is_empty reverse fuel db context request menu_name :
  context !! "request"%string = Some (PyRequest request) →
  ((∀ m, m ∈ menus db → name m ≠ menu_name) →
   draw_menu reverse fuel db context menu_name
   = Ok {| menu_tree := []; cached_ancestors := None |})
  ∧ (∀ menu, Menu_objects_get db menu_name = Ok menu →
             MenuItem_objects_filter db menu = [] →
             draw_menu reverse fuel db context menu_name
             = Ok {| menu_tree := []; cached_ancestors := None |}).
Proof.
  intros Hreq. unfold draw_menu. rewrite Hreq. split.
  - intros Hnone. unfold Menu_objects_get.
    destruct (filter (fun m => name m = menu_name) (menus db)) as [|m l] eqn:E;
      [done |].
    assert (m ∈ filter (fun m => name m = menu_name) (menus db)) as Hm
      by (rewrite E; left).
    apply list_elem_of_filter in Hm as [Hname Hm]. by apply Hnone in Hm.
  - intros menu -> ->. done.
Qed.

Lemma unknown_menu_is_empty_witness :
  about_context !! "request"%string = Some (PyRequest {| path := "/about" |})
  ∧ draw_menu no_reverse 0 spec_db about_context "footer"
    = Ok {| menu_tree := []; cached_ancestors := None |}.
Proof.
  split; [reflexivity |].
  apply (unknown_menu_is_empty no_reverse 0 spec_db about_context
           {| path := "/about" |} "footer"); [reflexivity |].
  intros m Hm. apply list_elem_of_singleton in Hm as ->. discriminate.
Defined.

(** C10. Without a request in the context (no such key, or the key bound to
    [None]), [draw_menu] raises [RuntimeError], whatever the database holds:
    it does not get as far as reading it, and returns no tree. *)
Theorem no_request_raises reverse fuel db context menu_name :
  context !! "request"%string = None
  ∨ context !! "request"%string = Some PyNone →
  draw_menu reverse fuel db context menu_name
  = Raise (RuntimeError no_request_message)
  ∧ ∀ db', draw_menu reverse fuel db' context menu_name
           = draw_menu reverse fuel db context menu_name.
Proof.
  intros [H|H]; unfold draw_menu; rewrite H; split; intros; reflexivity.
Qed.

Lemma no_request_raises_witness :
  (∅ : gmap string CtxValue) !! "request"%string = None
  ∧ draw_menu no_reverse 3 spec_db ∅ "main_menu"
    = Raise (RuntimeError no_request_message).
Proof.
  split; [reflexivity |].
  apply (no_request_raises no_reverse 3 spec_db ∅ "main_menu").
  left. reflexivity.
Defined.

(** C1, as the code has it. For stored records and enough fuel, [draw_menu]
    returns, and a node of the tree is active exactly when the location of
    its record equals the current location: every match is marked, not only
    the first. The record kept in [active_item], the one whose [ancestors]
    are read afterwards, is that of the last match of the traversal. *)
Theorem every_match_is_active reverse fuel table current_path items :
  stored table items → length items ≤ fuel →
  ∃ res,
    draw_menu_body reverse fuel table current_path items = Ok res
    ∧ (∀ n, n ∈ nodes (menu_tree res) →
            active n = true
            ↔ get_absolute_url reverse (item n) = Ok current_path)
    ∧ fst <$> cached_ancestors res = item <$> last (matches (menu_tree res)).
Proof.
  intros Hstored Hfuel.
  destruct (draw_menu_body_spec reverse current_path table items fuel
              Hstored Hfuel) as (forest & st & rs & cache & Hrun & Hres & _ & Hc).
  eexists. split; [exact Hres |]. simpl. split.
  - intros n' Hn'. apply elem_of_nodes_open_refs in Hn' as (n & Hn & ->).
    destruct (run_fresh _ _ _ _ _ _ Hrun n Hn) as (Hact & _ & _).
    rewrite active_open_refs, item_open_refs, Hact.
    apply bool_decide_eq_true.
  - rewrite matches_open_refs, fmap_last.
    destruct cache as [[a l]|].
    + destruct Hc as (_ & na & -> & <-). simpl. by rewrite item_open_refs.
    + by rewrite Hc.
Qed.

Lemma every_match_is_active_witness :
  stored two_home two_home
  ∧ ∃ res,
      draw_menu_body no_reverse 2 two_home "/" two_home = Ok res
      ∧ fst <$> cached_ancestors res = item <$> last (matches (menu_tree res)).
Proof.
  assert (stored two_home two_home) as Hs
    by (apply (bool_decide_unpack _); vm_compute; exact I).
  split; [exact Hs |].
  destruct (every_match_is_active no_reverse 2 two_home "/" two_home Hs)
    as (res & Hres & _ & Hlast); [simpl; lia |].
  exists res. split; [exact Hres | exact Hlast].
Defined.

(** C1, as the claim has it, fails on two roots with the same location: both
    nodes are active, and it is the second that is opened. *)
Lemma two_active_nodes :
  ∃ res,
    draw_menu_body no_reverse 2 two_home "/" two_home = Ok res
    ∧ menu_tree res
      = [mkNode 0 (rec 1 None 0 "/") [] true false;
         mkNode 1 (rec 2 None 1 "/") [] true true]
    ∧ length (matches (menu_tree res)) = 2.
Proof. eexists. split_and!; vm_compute; reflexivity. Qed.

(** C2, as the code has it. For stored records and enough fuel, [draw_menu]
    returns without an error, and a node is open exactly when its subtree
    holds the last active node of the traversal: the last match and its
    ancestors are open, every other node is closed, earlier matches included.
    When the location of no record equals the current location, every node
    is closed and none is active. *)
Theorem open_path_of_last_match reverse fuel table current_path items :
  stored table items → length items ≤ fuel →
  ∃ res,
    draw_menu_body reverse fuel table current_path items = Ok res
    ∧ (∀ n, n ∈ nodes (menu_tree res) →
            open n = true
            ↔ ∃ a, last (matches (menu_tree res)) = Some a ∧ a ∈ preorder n)
    ∧ ((∀ x, x ∈ items → get_absolute_url reverse x ≠ Ok current_path) →
       ∀ n, n ∈ nodes (menu_tree res) → open n = false ∧ active n = false).
Proof.
  intros Hstored Hfuel.
  pose proof (stored_unique_ids _ _ Hstored) as Hids.
  destruct (draw_menu_body_spec reverse current_path table items fuel
              Hstored Hfuel) as (forest & st & rs & cache & Hrun & Hres & Hrs & _).
  assert (∀ n, n ∈ nodes forest →
               open (open_refs rs n) = true
               ↔ ∃ a, last (matches (open_refs rs <$> forest)) = Some a
                      ∧ a ∈ preorder (open_refs rs n)) as Hopen.
  { intros n Hn.
    destruct (run_fresh _ _ _ _ _ _ Hrun n Hn) as (_ & Hclosed & _).
    rewrite open_open_refs, Hclosed, (Hrs n Hn), matches_open_refs, fmap_last.
    setoid_rewrite preorder_open_refs. split.
    - intros [(na & Hlast & Hin)|?]; [|done].
      exists (open_refs rs na). rewrite Hlast. split; [done |].
      by apply list_elem_of_fmap_2.
    - intros (a' & Hlast & Hin). left.
      destruct (last (matches forest)) as [na|] eqn:E; [|done].
      simpl in Hlast. inversion Hlast; subst a'. exists na. split; [done |].
      apply list_elem_of_fmap in Hin as (k & Hk & Hkn).
      assert (na ∈ nodes forest) as Hna.
      { apply last_Some_elem_of in E. unfold matches in E.
        by apply list_elem_of_filter in E as [_ ?]. }
      assert (k ∈ nodes forest) as Hkf.
      { apply elem_of_nodes in Hn as (c & Hc & Hn). apply elem_of_nodes.
        exists c. split; [done |]. by eapply preorder_trans. }
      assert (na = k) as ->; [|done].
      apply (run_refs _ _ _ _ _ _ Hrun); [done | done |].
      by rewrite <- (ref_open_refs rs na), Hk, ref_open_refs. }
  eexists. split; [exact Hres |]. simpl. split.
  - intros n' Hn'. apply elem_of_nodes_open_refs in Hn' as (n & Hn & ->).
    by apply Hopen.
  - intros Hnone.
    assert (∀ n, n ∈ nodes forest → active n = false) as Hinactive.
    { intros n Hn. destruct (run_fresh _ _ _ _ _ _ Hrun n Hn) as (-> & _ & _).
      apply bool_decide_eq_false, Hnone.
      by destruct (node_lineage _ _ _ Hids _ _ _ _ Hrun n Hn). }
    assert (matches forest = []) as Hm.
    { unfold matches. apply filter_none.
      intros n Hn. rewrite (Hinactive n Hn). done. }
    intros n' Hn'. apply elem_of_nodes_open_refs in Hn' as (n & Hn & ->).
    split; [|rewrite active_open_refs; by apply Hinactive].
    apply not_true_is_false. rewrite (Hopen n Hn), matches_open_refs, Hm.
    by intros (a & ? & _).
Qed.

Lemma open_path_of_last_match_witness :
  stored spec_items spec_items
  ∧ ∃ res,
      draw_menu_body no_reverse 3 spec_items "/about" spec_items = Ok res
      ∧ ∀ n, n ∈ nodes (menu_tree res) →
             open n = true
             ↔ ∃ a, last (matches (menu_tree res)) = Some a ∧ a ∈ preorder n.
Proof.
  assert (stored spec_items spec_items) as Hs
    by (apply (bool_decide_unpack _); vm_compute; exact I).
  split; [exact Hs |].
  destruct (open_path_of_last_match no_reverse 3 spec_items "/about"
              spec_items Hs) as (res & Hres & Hopen & _); [simpl; lia |].
  exists res. split; [exact Hres | exact Hopen].
Defined.

(** C2, as the claim has it, fails on two roots with the same location: the
    first root is active and yet closed. *)
Lemma active_node_left_closed :
  ∃ res n,
    draw_menu_body no_reverse 2 two_home "/" two_home = Ok res
    ∧ n ∈ nodes (menu_tree res)
    ∧ item n = rec 1 None 0 "/"
    ∧ active n = true
    ∧ open n = false.
Proof.
  eexists. exists (mkNode 0 (rec 1 None 0 "/") [] true false).
  split_and!; [vm_compute; reflexivity | | done | done | done].
  vm_compute. left.
Qed.

(** C3, as the code has it. [build_tree] has no check on ids and fails on no
    input: each sequence of the grouping holds all the records with that
    [parent_id], as many times as the input has them, and two records that
    share an id are both found in the grouping, each under its own
    [parent_id]. *)
Theorem build_tree_keeps_every_record items :
  (∀ k, tree_get (build_tree items) k
        ≡ₚ filter (fun x => parent_id x = k) items)
  ∧ (∀ x y, x ∈ items → y ∈ items → id x = id y →
            ∃ lx ly,
              build_tree items !! parent_id x = Some lx ∧ x ∈ lx
              ∧ build_tree items !! parent_id y = Some ly ∧ y ∈ ly).
Proof.
  assert (∀ x, x ∈ items →
               ∃ l, build_tree items !! parent_id x = Some l ∧ x ∈ l) as Hkept.
  { intros x Hx.
    assert (x ∈ tree_get (build_tree items) (parent_id x)) as Hin
      by (by apply elem_of_tree_get).
    unfold tree_get in Hin. destruct (build_tree items !! parent_id x) as [l|].
    - eauto.
    - by apply elem_of_nil in Hin. }
  split.
  - intros k. rewrite tree_get_build_tree. apply sort_items_perm.
  - intros x y Hx Hy _.
    destruct (Hkept x Hx) as (lx & ? & ?). destruct (Hkept y Hy) as (ly & ? & ?).
    by exists lx, ly.
Qed.

(** C3, as the claim has it, fails on two records with id 1: the call
    returns a tree with a node for each of them. *)
Lemma same_id_is_no_error :
  id <$> same_id = [1%Z; 1%Z]
  ∧ build_tree same_id = {[ None := same_id ]}
  ∧ draw_menu_body no_reverse 2 same_id "/" same_id
    = Ok {| menu_tree := [mkNode 0 (rec 1 None 0 "/a") [] false false;
                          mkNode 1 (rec 1 None 1 "/b") [] false false];
            cached_ancestors := None |}.
Proof. split_and!; vm_compute; reflexivity. Qed.

(** C4, as the code has it. [draw_menu] has no check for cycles and raises
    nothing for one. For stored records and enough fuel it returns all the
    same: the traversal starts at the records without a parent and goes no
    deeper than there are records, and a record on a cycle, having no chain of
    parents that ends at a root, is in no node of the tree. *)
Theorem cycles_are_left_out reverse fuel table current_path items :
  stored table items → length items ≤ fuel →
  ∃ res,
    draw_menu_body reverse fuel table current_path items = Ok res
    ∧ ∀ x, on_cycle items x → x ∉ item <$> nodes (menu_tree res).
Proof.
  intros Hstored Hfuel.
  pose proof (stored_unique_ids _ _ Hstored) as Hids.
  destruct (draw_menu_body_records reverse fuel table current_path items
              Hstored Hfuel) as (res & Hres & _ & Hin & _).
  exists res. split; [done |]. intros x Hc Hx.
  apply Hin in Hx as (_ & L & HL).
  by apply (on_cycle_no_lineage items Hids x L).
Qed.

Lemma cycles_are_left_out_witness :
  stored two_cycle two_cycle
  ∧ ∃ res,
      draw_menu_body no_reverse 2 two_cycle "/a" two_cycle = Ok res
      ∧ ∀ x, on_cycle two_cycle x → x ∉ item <$> nodes (menu_tree res).
Proof.
  assert (stored two_cycle two_cycle) as Hs
    by (apply (bool_decide_unpack _); vm_compute; exact I).
  split; [exact Hs |].
  apply (cycles_are_left_out no_reverse 2 two_cycle "/a" two_cycle Hs).
  simpl. lia.
Defined.

(** C4, as the claim has it, fails on two records that are each other's
    parent: the call raises nothing and returns the empty tree. *)
Lemma two_cycle_is_no_error :
  on_cycle two_cycle (rec 1 (Some 2%Z) 0 "/a")
  ∧ draw_menu_body no_reverse 2 two_cycle "/a" two_cycle
    = Ok {| menu_tree := []; cached_ancestors := None |}.
Proof.
  split; [|vm_compute; reflexivity].
  apply (tc_l _ _ (rec 2 (Some 1%Z) 0 "/b")); [|apply tc_once];
    (split; [reflexivity |]).
  - right. left.
  - left.
Qed.

(** C5, as the code has it. A record whose parent is in no record of the
    group is not made a root: the traversal starts only at the records
    without a parent, and the orphan is in no node of the tree. For stored
    records and enough fuel, the records of the nodes are the records whose
    chain of parents inside the group ends at a root, each once, so that
    there are as many nodes as such records. *)
Theorem orphans_are_left_out reverse fuel table current_path items :
  stored table items → length items ≤ fuel →
  ∃ res,
    draw_menu_body reverse fuel table current_path items = Ok res
    ∧ (∀ x, orphan items x → x ∉ item <$> nodes (menu_tree res))
    ∧ item <$> nodes (menu_tree res)
      ≡ₚ filter (fun x => reaches_root items (length items) x = true) items
    ∧ length (nodes (menu_tree res))
      = length
          (filter (fun x => reaches_root items (length items) x = true) items).
Proof.
  intros Hstored Hfuel.
  pose proof (stored_unique_ids _ _ Hstored) as Hids.
  destruct (draw_menu_body_records reverse fuel table current_path items
              Hstored Hfuel) as (res & Hres & Hnd & Hin & _).
  assert (item <$> nodes (menu_tree res)
          ≡ₚ filter (fun x => reaches_root items (length items) x = true) items)
    as Hperm.
  { apply NoDup_Permutation; [done | |].
    - apply NoDup_filter. by apply items_nodup.
    - intros x. rewrite Hin, list_elem_of_filter. split.
      + intros [Hx HL]. split; [|done]. by apply reaches_root_lineage.
      + intros [Hr Hx]. split; [done |]. by apply reaches_root_lineage. }
  exists res. split_and!; [done | | done |].
  - intros x Ho Hx. apply Hin in Hx as (_ & L & HL).
    by apply (orphan_no_lineage items x L).
  - rewrite <- Hperm. by rewrite length_fmap.
Qed.

Lemma orphans_are_left_out_witness :
  stored with_orphan with_orphan
  ∧ ∃ res,
      draw_menu_body no_reverse 2 with_orphan "/" with_orphan = Ok res
      ∧ length (nodes (menu_tree res))
        = length (filter (fun x => reaches_root with_orphan 2 x = true)
                         with_orphan).
Proof.
  assert (stored with_orphan with_orphan) as Hs
    by (apply (bool_decide_unpack _); vm_compute; exact I).
  split; [exact Hs |].
  destruct (orphans_are_left_out no_reverse 2 with_orphan "/" with_orphan Hs)
    as (res & Hres & _ & _ & Hlen); [simpl; lia |].
  exists res. split; [exact Hres | exact Hlen].
Defined.

(** C5, as the claim has it, fails on a root and a record with parent 99:
    the orphan is not a root of the tree, and is not in it at all. *)
Lemma orphan_is_no_root :
  orphan with_orphan (rec 2 (Some 99%Z) 0 "/x")
  ∧ draw_menu_body no_reverse 2 with_orphan "/" with_orphan
    = Ok {| menu_tree := [mkNode 0 (rec 1 None 0 "/") [] true true];
            cached_ancestors := Some (rec 1 None 0 "/", []) |}.
Proof.
  split; [|vm_compute; reflexivity].
  exists 99%Z. split; [reflexivity |]. intros y Hy.
  repeat (apply elem_of_cons in Hy as [->|Hy]; [discriminate |]).
  by apply elem_of_nil in Hy.
Qed.

(** C9, as the code has it. For stored records and enough fuel, every node
    of the returned tree holds a record of the input as it is, each record
    in one node at most. One record object is written to: [ancestors], a
    [cached_property], stores the chain of parents on the record of the last
    match; when nothing matches, no record object is written to. *)
Theorem only_the_ancestors_cache_is_written
    reverse fuel table current_path items :
  stored table items → length items ≤ fuel →
  ∃ res,
    draw_menu_body reverse fuel table current_path items = Ok res
    ∧ (∀ n, n ∈ nodes (menu_tree res) → item n ∈ items)
    ∧ NoDup (item <$> nodes (menu_tree res))
    ∧ match cached_ancestors res with
      | None => matches (menu_tree res) = []
      | Some (a, l) =>
          lineage items a (a :: l)
          ∧ item <$> last (matches (menu_tree res)) = Some a
      end.
Proof.
  intros Hstored Hfuel.
  destruct (draw_menu_body_records reverse fuel table current_path items
              Hstored Hfuel) as (res & Hres & Hnd & Hin & Hc).
  exists res. split_and!; [done | | done | done].
  intros n Hn. apply (list_elem_of_fmap_2 item) in Hn.
  by apply Hin in Hn as [? _].
Qed.

Lemma only_the_ancestors_cache_is_written_witness :
  stored spec_items spec_items
  ∧ ∃ res,
      draw_menu_body no_reverse 3 spec_items "/about" spec_items = Ok res
      ∧ ∀ n, n ∈ nodes (menu_tree res) → item n ∈ spec_items.
Proof.
  assert (stored spec_items spec_items) as Hs
    by (apply (bool_decide_unpack _); vm_compute; exact I).
  split; [exact Hs |].
  destruct (only_the_ancestors_cache_is_written no_reverse 3 spec_items
              "/about" spec_items Hs) as (res & Hres & Hin & _); [simpl; lia |].
  exists res. split; [exact Hres | exact Hin].
Defined.

(** C9, as the claim has it, fails on the scenario of the specification: the
    call leaves the record with id 2 with its list of ancestors stored on
    it. *)
Lemma active_record_is_written :
  ∃ res,
    draw_menu_body no_reverse 3 spec_items "/about" spec_items = Ok res
    ∧ cached_ancestors res
      = Some (rec 2 (Some 1%Z) 0 "/about", [rec 1 None 0 "/"]).
Proof. eexists. split; vm_compute; reflexivity. Qed.

(** * More about the code *)

(** ** [ancestors] *)

Lemma ancestors_loop_sound fuel table y L :
  ancestors_loop fuel table (Some y) = Ok L → lineage table y L.
Proof.
  revert y L. induction fuel as [|fuel IH]; intros y L H; simpl in H; [done |].
  unfold parent in H. destruct (parent_id y) as [p|] eqn:Hp; simpl in H.
  - destruct (List.find _ table) as [r|] eqn:E; simpl in H; [|done].
    destruct (ancestors_loop fuel table (Some r)) as [rest| |] eqn:Er;
      simpl in H; try done.
    inversion H; subst. apply find_some in E as [Hr Hid].
    apply bool_decide_eq_true in Hid. apply list_elem_of_In in Hr.
    eapply lineage_step; [|done|by apply IH]. congruence.
  - destruct fuel; simpl in H; inversion H; subst; by constructor.
Qed.

Lemma parent_in_fun table x y z :
  NoDup (id <$> table) → parent_in table x y → parent_in table x z → y = z.
Proof.
  intros Hnd [Hy ?] [Hz ?]. apply (id_inj table Hnd); congruence.
Qed.

Lemma on_cycle_parent table x :
  on_cycle table x → ∃ y, parent_in table x y.
Proof. intros H. inversion H; eauto. Qed.

Lemma on_cycle_step table x y :
  NoDup (id <$> table) → on_cycle table x → parent_in table x y →
  on_cycle table y.
Proof.
  intros Hnd Hc Hxy. unfold on_cycle in *.
  inversion Hc as [? ? Hxx|? w ? Hxw Hwx]; subst.
  - by rewrite (parent_in_fun _ _ _ _ Hnd Hxy Hxx).
  - rewrite (parent_in_fun _ _ _ _ Hnd Hxy Hxw). by eapply tc_r.
Qed.

Lemma ancestors_loop_cycle fuel table y :
  NoDup (id <$> table) → on_cycle table y →
  ancestors_loop fuel table (Some y) = OutOfFuel.
Proof.
  intros Hnd. revert y. induction fuel as [|fuel IH]; intros y Hc; [done |].
  destruct (on_cycle_parent _ _ Hc) as [z Hyz]. pose proof Hyz as [Hp Hz].
  simpl. unfold parent. rewrite Hp, (find_by_id table Hnd) by done. simpl.
  by rewrite IH by (by eapply on_cycle_step).
Qed.

(** X1. [ancestors] returns the chain of parents and nothing else: when it
    returns a list, the list starts with the parent of the record, goes on
    with the parent of each element, all of them rows of the table, and ends
    with a record without a parent; and if the ids of the table are unique
    and the record has such a chain, that chain is what it returns. *)
Theorem ancestors_is_the_parent_chain fuel table x l :
  NoDup (id <$> table) →
  (ancestors fuel table x = Ok l → lineage table x (x :: l))
  ∧ (lineage table x (x :: l) → length l ≤ fuel →
     ancestors fuel table x = Ok l).
Proof.
  intros Hnd. split.
  - unfold ancestors, parent. intros H.
    destruct (parent_id x) as [p|] eqn:Hp; simpl in H.
    + destruct (List.find _ table) as [r|] eqn:E; simpl in H; [|done].
      apply ancestors_loop_sound in H. apply find_some in E as [Hr Hid].
      apply bool_decide_eq_true in Hid. apply list_elem_of_In in Hr.
      eapply lineage_step; [|done|done]. congruence.
    + destruct fuel; simpl in H; inversion H; subst; by constructor.
  - intros HL Hlen. unfold ancestors, parent.
    inversion HL as [? Hp|? y l' Hp Hy Hl']; subst; rewrite Hp; simpl.
    + by destruct fuel.
    + rewrite (find_by_id table Hnd) by done. simpl.
      by apply (ancestors_loop_lineage table table Hnd).
Qed.

Lemma ancestors_is_the_parent_chain_witness :
  NoDup (id <$> spec_items)
  ∧ lineage spec_items (rec 2 (Some 1%Z) 0 "/about")
            [rec 2 (Some 1%Z) 0 "/about"; rec 1 None 0 "/"].
Proof.
  assert (NoDup (id <$> spec_items)) as Hnd
    by (apply (bool_decide_unpack _); vm_compute; exact I).
  split; [exact Hnd |].
  apply (ancestors_is_the_parent_chain 3 spec_items
           (rec 2 (Some 1%Z) 0 "/about") [rec 1 None 0 "/"] Hnd).
  vm_compute. reflexivity.
Defined.

(** X2. The loop of [ancestors] has no guard against a cycle: on a record
    whose chain of parents leads back to itself, in a table with unique ids,
    [ancestors] never returns. *)
Theorem ancestors_loops_on_a_cycle table x :
  NoDup (id <$> table) → on_cycle table x →
  ∀ fuel, ancestors fuel table x = OutOfFuel.
Proof.
  intros Hnd Hc fuel. destruct (on_cycle_parent _ _ Hc) as [y Hxy].
  pose proof Hxy as [Hp Hy]. unfold ancestors, parent.
  rewrite Hp, (find_by_id table Hnd) by done. simpl.
  apply ancestors_loop_cycle; [done |]. by eapply on_cycle_step.
Qed.

Lemma ancestors_loops_on_a_cycle_witness :
  NoDup (id <$> two_cycle)
  ∧ on_cycle two_cycle (rec 1 (Some 2%Z) 0 "/a")
  ∧ ∀ fuel, ancestors fuel two_cycle (rec 1 (Some 2%Z) 0 "/a") = OutOfFuel.
Proof.
  assert (NoDup (id <$> two_cycle)) as Hnd
    by (apply (bool_decide_unpack _); vm_compute; exact I).
  assert (on_cycle two_cycle (rec 1 (Some 2%Z) 0 "/a")) as Hc.
  { apply (tc_l _ _ (rec 2 (Some 1%Z) 0 "/b")); [|apply tc_once];
      (split; [reflexivity |]); [right; left | left]. }
  split_and!; [exact Hnd | exact Hc |].
  exact (ancestors_loops_on_a_cycle two_cycle _ Hnd Hc).
Defined.

(** ** [build_tree] *)

Lemma grouping_lookup_filter (items : list MenuItem) m k :
  foldl setdefault_append m items !! k
  = match filter (fun x => parent_id x = k) items with
    | [] => m !! k
    | f => Some (default [] (m !! k) ++ f)
    end.
Proof.
  revert m. induction items as [|x items IH]; intros m; simpl; [done |].
  rewrite IH, filter_cons. unfold setdefault_append.
  destruct (decide (parent_id x = k)) as [->|Hne].
  - rewrite lookup_insert_eq. simpl.
    destruct (filter _ items); simpl; [done |]. by rewrite <- app_assoc.
  - by rewrite lookup_insert_ne.
Qed.

Lemma sort_items_nil l : sort_items l = [] ↔ l = [].
Proof.
  split; [|by intros ->]. intros H. apply Permutation_nil_r.
  by rewrite <- sort_items_perm, H.
Qed.

Lemma build_tree_lookup_filter items k :
  build_tree items !! k
  = match filter (fun x => parent_id x = k) items with
    | [] => None
    | f => Some (sort_items f)
    end.
Proof.
  unfold build_tree. rewrite lookup_fmap, grouping_lookup_filter, lookup_empty.
  by destruct (filter _ items).
Qed.

#[global] Instance item_le_trans : Transitive item_le.
Proof. intros x y z. unfold item_le, key_le, sort_key. simpl. lia. Qed.

Lemma StronglySorted_filter_items (P : MenuItem → Prop)
    `{∀ x, Decision (P x)} l :
  StronglySorted item_le l → StronglySorted item_le (filter P l).
Proof.
  induction 1 as [|x l Hl IH Hx]; [constructor |].
  rewrite filter_cons. case_decide; [|done].
  constructor; [done |]. apply Forall_forall. intros y Hy.
  apply list_elem_of_filter in Hy as [_ Hy]. rewrite Forall_forall in Hx. auto.
Qed.

Lemma sort_items_sorted_id l : Sorted item_le l → sort_items l = l.
Proof.
  induction 1 as [|x l Hl IH Hx]; [done |]. simpl. rewrite IH.
  destruct Hx as [|y l' Hxy]; [done |]. simpl. by rewrite decide_True.
Qed.

(** X3. The keys of the grouping are the parents that occur in the input: a
    key is absent exactly when no record has it as [parent_id], so a lookup
    never finds an empty sequence, and the grouping of no records is the
    empty dictionary. *)
Theorem build_tree_keys items k :
  (build_tree items !! k = None ↔ ∀ x, x ∈ items → parent_id x ≠ k)
  ∧ (∀ l, build_tree items !! k = Some l → l ≠ [])
  ∧ build_tree [] = ∅.
Proof.
  rewrite build_tree_lookup_filter. split_and!; [| |done].
  - destruct (filter _ items) as [|y f] eqn:E.
    + split; [|done]. intros _ x Hx Hk.
      assert (x ∈ filter (fun x => parent_id x = k) items) as Hin
        by (by apply list_elem_of_filter).
      rewrite E in Hin. by apply elem_of_nil in Hin.
    + split; [done |]. intros Hnone.
      assert (y ∈ filter (fun x => parent_id x = k) items) as Hin
        by (rewrite E; left).
      apply list_elem_of_filter in Hin as [Hk Hy]. by destruct (Hnone y Hy).
  - intros l. destruct (filter _ items) as [|y f]; [done |].
    intros Hl ->. injection Hl as Hl.
    by apply (proj1 (sort_items_nil (y :: f))) in Hl.
Qed.

(** X4. For records with distinct ids the grouping does not depend on the
    order of the input: two inputs with the same records give the same
    dictionary. *)
Theorem build_tree_order_independent items items' :
  NoDup (id <$> items) → items ≡ₚ items' →
  build_tree items = build_tree items'.
Proof.
  intros Hnd Hperm. apply map_eq. intros k.
  rewrite !build_tree_lookup_filter.
  assert (filter (fun x => parent_id x = k) items
          ≡ₚ filter (fun x => parent_id x = k) items') as Hf
    by (by rewrite Hperm).
  destruct (filter _ items) as [|y f] eqn:E.
  - symmetry in Hf. apply Permutation_nil_r in Hf. by rewrite Hf.
  - destruct (filter _ items') as [|y' f'] eqn:E'.
    + by apply Permutation_nil_r in Hf.
    + f_equal. apply (Sorted_unique_strong item_le);
        [|apply sort_items_sorted..|by rewrite !sort_items_perm].
      intros x1 x2 Hx1 Hx2 H12 H21.
      rewrite elem_of_sort_items, <- E in Hx1.
      rewrite elem_of_sort_items, <- E' in Hx2.
      apply list_elem_of_filter in Hx1 as [_ Hx1].
      apply list_elem_of_filter in Hx2 as [_ Hx2]. rewrite <- Hperm in Hx2.
      apply (id_inj items Hnd); [done | done |].
      unfold item_le, key_le, sort_key in *. simpl in *. lia.
Qed.

Lemma build_tree_order_independent_witness :
  NoDup (id <$> spec_items)
  ∧ build_tree spec_items
    = build_tree [rec 1 None 0 "/"; rec 3 (Some 1%Z) 1 "/contact";
                  rec 2 (Some 1%Z) 0 "/about"].
Proof.
  assert (NoDup (id <$> spec_items)) as Hnd
    by (apply (bool_decide_unpack _); vm_compute; exact I).
  split; [exact Hnd |].
  apply (build_tree_order_independent spec_items _ Hnd). apply Permutation_swap.
Defined.

(** X5. On records that are already in the order of [(order, id)], as the
    query of [draw_menu] delivers them, the sort of [build_tree] moves
    nothing: every sequence of the grouping is the input with the records of
    other parents left out. *)
Theorem build_tree_keeps_sorted_input items k :
  Sorted item_le items →
  tree_get (build_tree items) k = filter (fun x => parent_id x = k) items.
Proof.
  intros Hs. rewrite tree_get_build_tree. apply sort_items_sorted_id.
  apply StronglySorted_Sorted, StronglySorted_filter_items.
  by apply Sorted_StronglySorted; [apply _ |].
Qed.

Lemma build_tree_keeps_sorted_input_witness :
  let fetched :=
    MenuItem_objects_filter spec_db
      {| menu_pk := 1; name := "main_menu"; slug := "main" |} in
  Sorted item_le fetched
  ∧ tree_get (build_tree fetched) (Some 1%Z)
    = filter (fun x => parent_id x = Some 1%Z) fetched.
Proof.
  intros fetched.
  assert (Sorted item_le fetched) as Hs
    by (apply (bool_decide_unpack _); vm_compute; exact I).
  split; [exact Hs |].
  exact (build_tree_keeps_sorted_input fetched (Some 1%Z) Hs).
Defined.

(** ** The structure of the returned tree *)

Lemma preorder_cases m n :
  m ∈ preorder n → m = n ∨ ∃ p, p ∈ preorder n ∧ m ∈ children p.
Proof.
  induction n as [r i cs a o IH] using Node_nested_ind. intros Hm.
  apply elem_of_preorder in Hm as [->|(c & Hc & Hm)]; [by left |]. right.
  rewrite Forall_forall in IH.
  destruct (IH c Hc Hm) as [->|(p & Hp & Hmp)].
  - eexists. split; [apply preorder_self | done].
  - exists p. split; [|done]. apply elem_of_preorder. right. eauto.
Qed.

Lemma nodes_cases m forest :
  m ∈ nodes forest → m ∈ forest ∨ ∃ p, p ∈ nodes forest ∧ m ∈ children p.
Proof.
  intros Hm. apply elem_of_nodes in Hm as (n & Hn & Hm).
  apply preorder_cases in Hm as [->|(p & Hp & Hmp)]; [by left |].
  right. exists p. split; [|done]. apply elem_of_nodes. eauto.
Qed.

(** Whatever the records are, the roots of a returned tree are the records
    without a parent and the children of a node are the records that name it
    as their parent, both in the order of the sort. *)
Lemma draw_menu_body_structure reverse fuel table current_path items res :
  draw_menu_body reverse fuel table current_path items = Ok res →
  item <$> menu_tree res
  = sort_items (filter (fun x => parent_id x = None) items)
  ∧ ∀ n, n ∈ nodes (menu_tree res) →
         item n ∈ items
         ∧ item <$> children n
           = sort_items
               (filter (fun x => parent_id x = Some (id (item n))) items).
Proof.
  intros Hres.
  apply draw_menu_body_shape in Hres as (forest & st & rs & Hrun & ->).
  destruct (run_built _ _ _ _ _ _ _ Hrun) as [Hroots _].
  assert (∀ n, n ∈ nodes forest →
               item <$> children n
               = sort_items
                   (filter (fun x => parent_id x = Some (id (item n))) items))
    as Hchildren.
  { intros n Hn. destruct (run_fresh _ _ _ _ _ _ Hrun n Hn) as (_ & _ & Hcs).
    by rewrite Hcs, tree_get_build_tree. }
  split.
  - rewrite fmap_item_open_refs, Hroots, tree_get_build_tree.
    f_equal. by apply list_filter_iff.
  - intros n' Hn'. apply elem_of_nodes_open_refs in Hn' as (n & Hn & ->).
    rewrite children_open_refs, fmap_item_open_refs, item_open_refs.
    split; [|by apply Hchildren].
    apply nodes_cases in Hn as [Hn|(p & Hp & Hn)].
    + apply (list_elem_of_fmap_2 item) in Hn.
      rewrite Hroots in Hn. by apply elem_of_tree_get in Hn as [? _].
    + apply (list_elem_of_fmap_2 item) in Hn.
      rewrite (Hchildren p Hp), elem_of_sort_items in Hn.
      by apply list_elem_of_filter in Hn as [_ ?].
Qed.

(** X6. The returned tree follows the parent links of the records, whatever
    the records are: its roots are the records without a parent, the
    children of a node are the records whose [parent_id] is the id of the
    node's record, all of them and no others, in the order of the sort; and
    every node holds a record of the input. *)
Theorem tree_follows_parent_links reverse fuel table current_path items res :
  draw_menu_body reverse fuel table current_path items = Ok res →
  item <$> menu_tree res
  = sort_items (filter (fun x => parent_id x = None) items)
  ∧ (∀ n, n ∈ nodes (menu_tree res) →
          item n ∈ items
          ∧ item <$> children n
            = sort_items
                (filter (fun x => parent_id x = Some (id (item n))) items))
  ∧ (∀ n c, n ∈ nodes (menu_tree res) → c ∈ children n →
            parent_id (item c) = Some (id (item n))).
Proof.
  intros Hres.
  destruct (draw_menu_body_structure _ _ _ _ _ _ Hres) as [Hroots Hnodes].
  split_and!; [done | done |].
  intros n c Hn Hc. destruct (Hnodes n Hn) as [_ Hcs].
  apply (list_elem_of_fmap_2 item) in Hc.
  rewrite Hcs, elem_of_sort_items in Hc.
  by apply list_elem_of_filter in Hc as [? _].
Qed.

Lemma tree_follows_parent_links_witness :
  ∃ res,
    draw_menu_body no_reverse 3 spec_items "/about" spec_items = Ok res
    ∧ item <$> menu_tree res
      = sort_items (filter (fun x => parent_id x = None) spec_items).
Proof.
  eexists. split; [vm_compute; reflexivity |].
  eapply (tree_follows_parent_links no_reverse 3 spec_items "/about").
  vm_compute. reflexivity.
Defined.

(** ** [draw_menu] on a database that keeps its constraints *)





(** X8. A returned tree shows records of the named menu only: every node
    holds a row of the item table whose menu is a menu of that name, also
    when rows of other menus name a record of this menu as their parent. *)
Theorem draw_menu_shows_one_menu reverse fuel db context menu_name res :
  draw_menu reverse fuel db context menu_name = Ok res →
  ∀ n, n ∈ nodes (menu_tree res) →
       item n ∈ menu_items db
       ∧ ∃ menu, menu ∈ menus db ∧ name menu = menu_name
                 ∧ menu_id (item n) = menu_pk menu.
Proof.
  unfold draw_menu. intros Hres.
  destruct (context !! "request"%string) as [[|request]|]; try done.
  unfold Menu_objects_get in Hres.
  destruct (filter _ (menus db)) as [|menu [|menu' l]] eqn:E; simpl in Hres;
    [| |done].
  - inversion Hres; subst. intros n Hn. by apply elem_of_nil in Hn.
  - assert (menu ∈ filter (fun m => name m = menu_name) (menus db)) as Hm
      by (rewrite E; left).
    apply list_elem_of_filter in Hm as [Hname Hm].
    destruct (draw_menu_body_structure _ _ _ _ _ _ Hres) as [_ Hnodes].
    intros n Hn. destruct (Hnodes n Hn) as [Hin _].
    unfold MenuItem_objects_filter in Hin. rewrite elem_of_sort_items in Hin.
    apply list_elem_of_filter in Hin as [Hmenu Hin]. eauto.
Qed.

Lemma draw_menu_shows_one_menu_witness :
  ∃ res,
    draw_menu no_reverse 3 spec_db about_context "main_menu" = Ok res
    ∧ ∀ n, n ∈ nodes (menu_tree res) → item n ∈ menu_items spec_db.
Proof.
  eexists. split; [vm_compute; reflexivity |].
  intros n Hn.
  eapply (draw_menu_shows_one_menu no_reverse 3 spec_db about_context
            "main_menu"); [vm_compute; reflexivity | exact Hn].
Defined.

(** ** The open nodes *)

(** X9. For stored records and enough fuel, the open nodes of the returned
    tree lie on one path from a root downwards: of any two open nodes one is
    in the subtree of the other. *)
Theorem open_nodes_form_a_path reverse fuel table current_path items :
  stored table items → length items ≤ fuel →
  ∃ res,
    draw_menu_body reverse fuel table current_path items = Ok res
    ∧ ∀ n1 n2, n1 ∈ nodes (menu_tree res) → n2 ∈ nodes (menu_tree res) →
               open n1 = true → open n2 = true →
               n1 ∈ preorder n2 ∨ n2 ∈ preorder n1.
Proof.
  intros Hstored Hfuel.
  pose proof (stored_unique_ids _ _ Hstored) as Hids.
  destruct (draw_menu_body_spec reverse current_path table items fuel
              Hstored Hfuel) as (forest & st & rs & cache & Hrun & Hres & Hrs & _).
  exists {| menu_tree := open_refs rs <$> forest; cached_ancestors := cache |}.
  split; [exact Hres |]. simpl. intros n1' n2' Hn1 Hn2 Ho1 Ho2.
  apply elem_of_nodes_open_refs in Hn1 as (m1 & Hm1 & ->).
  apply elem_of_nodes_open_refs in Hn2 as (m2 & Hm2 & ->).
  rewrite !preorder_open_refs.
  assert (∀ m, m ∈ nodes forest → open (open_refs rs m) = true →
               ∃ na, last (matches forest) = Some na ∧ na ∈ preorder m) as Hup.
  { intros m Hm Ho. destruct (run_fresh _ _ _ _ _ _ Hrun m Hm) as (_ & Hc & _).
    apply open_open_refs in Ho as [Ho|Ho]; [by apply Hrs | congruence]. }
  destruct (Hup m1 Hm1 Ho1) as (na & Hlast & Hin1).
  destruct (Hup m2 Hm2 Ho2) as (na' & Hlast' & Hin2).
  assert (na' = na) as -> by congruence.
  assert (na ∈ nodes forest) as Hna.
  { apply last_Some_elem_of in Hlast. unfold matches in Hlast.
    by apply list_elem_of_filter in Hlast as [_ ?]. }
  destruct (node_lineage _ _ _ Hids _ _ _ _ Hrun na Hna) as (_ & La & HLa).
  apply (lineage_subtree _ _ _ Hids _ _ _ Hrun m1 na La Hm1 Hna HLa) in Hin1.
  apply (lineage_subtree _ _ _ Hids _ _ _ Hrun m2 na La Hm2 Hna HLa) in Hin2.
  apply list_elem_of_split in Hin1 as (p & s & ->).
  apply elem_of_app in Hin2 as [Hin2|Hin2].
  - right. apply list_elem_of_fmap_2.
    apply list_elem_of_split in Hin2 as (p1 & p2 & ->).
    rewrite <- app_assoc in HLa. simpl in HLa.
    apply lineage_suffix in HLa.
    apply (lineage_subtree _ _ _ Hids _ _ _ Hrun m1 m2 _ Hm1 Hm2 HLa).
    right. apply elem_of_app. right. left.
  - left. apply list_elem_of_fmap_2.
    apply lineage_suffix in HLa.
    by apply (lineage_subtree _ _ _ Hids _ _ _ Hrun m2 m1 _ Hm2 Hm1 HLa).
Qed.

Lemma open_nodes_form_a_path_witness :
  stored spec_items spec_items
  ∧ ∃ res,
      draw_menu_body no_reverse 3 spec_items "/about" spec_items = Ok res
      ∧ ∀ n1 n2, n1 ∈ nodes (menu_tree res) → n2 ∈ nodes (menu_tree res) →
                 open n1 = true → open n2 = true →
                 n1 ∈ preorder n2 ∨ n2 ∈ preorder n1.
Proof.
  assert (stored spec_items spec_items) as Hs
    by (apply (bool_decide_unpack _); vm_compute; exact I).
  split; [exact Hs |].
  apply (open_nodes_form_a_path no_reverse 3 spec_items "/about" spec_items Hs).
  simpl. lia.
Defined.

(** X10. Only the records of the tree can light anything up. For stored
    records and enough fuel: when the current location is that of no record
    whose chain of parents ends at a root, no node is active and none is
    open, also when an orphan or a record on a cycle has that location. *)
Theorem unreachable_match_marks_nothing
    reverse fuel table current_path items :
  stored table items → length items ≤ fuel →
  (∀ x, x ∈ items → reaches_root items (length items) x = true →
        get_absolute_url reverse x ≠ Ok current_path) →
  ∃ res,
    draw_menu_body reverse fuel table current_path items = Ok res
    ∧ cached_ancestors res = None
    ∧ ∀ n, n ∈ nodes (menu_tree res) → active n = false ∧ open n = false.
Proof.
  intros Hstored Hfuel Hnone.
  pose proof (stored_unique_ids _ _ Hstored) as Hids.
  destruct (draw_menu_body_spec reverse current_path table items fuel
              Hstored Hfuel) as (forest & st & rs & cache & Hrun & Hres & Hrs & Hc).
  assert (∀ n, n ∈ nodes forest → active n = false) as Hinactive.
  { intros n Hn. destruct (run_fresh _ _ _ _ _ _ Hrun n Hn) as (-> & _ & _).
    destruct (node_lineage _ _ _ Hids _ _ _ _ Hrun n Hn) as [Hin HL].
    apply bool_decide_eq_false, Hnone; [done |].
    by apply reaches_root_lineage. }
  assert (matches forest = []) as Hm.
  { unfold matches. apply filter_none.
    intros n Hn. rewrite (Hinactive n Hn). done. }
  rewrite Hm in Hrs, Hc. simpl in Hrs, Hc.
  eexists. split; [exact Hres |]. simpl. split.
  - destruct cache as [[a l]|]; [|done]. by destruct Hc as (_ & na & ? & _).
  - intros n' Hn'. apply elem_of_nodes_open_refs in Hn' as (n & Hn & ->).
    rewrite active_open_refs. split; [by apply Hinactive |].
    apply not_true_is_false. rewrite open_open_refs.
    destruct (run_fresh _ _ _ _ _ _ Hrun n Hn) as (_ & Hclosed & _).
    intros [Hr|Ho]; [|congruence].
    apply Hrs in Hr as (na & ? & _); done.
Qed.

Lemma unreachable_match_marks_nothing_witness :
  stored with_orphan with_orphan
  ∧ ∃ res,
      draw_menu_body no_reverse 2 with_orphan "/x" with_orphan = Ok res
      ∧ cached_ancestors res = None
      ∧ ∀ n, n ∈ nodes (menu_tree res) → active n = false ∧ open n = false.
Proof.
  assert (stored with_orphan with_orphan) as Hs
    by (apply (bool_decide_unpack _); vm_compute; exact I).
  split; [exact Hs |].
  apply (unreachable_match_marks_nothing no_reverse 2 with_orphan "/x"
           with_orphan Hs); [simpl; lia |].
  intros x Hx. repeat (apply elem_of_cons in Hx as [->|Hx]);
    [vm_compute; discriminate | vm_compute; discriminate |].
  by apply elem_of_nil in Hx.
Defined.

(** X11. The table is read only along the chain of parents of the active
    record, and that chain lies inside the records of the menu: for stored
    records and enough fuel the result is the same over any two tables that
    hold the records, whatever other rows they have. *)
Theorem other_rows_do_not_matter
    reverse fuel table table' current_path items :
  stored table items → stored table' items → length items ≤ fuel →
  draw_menu_body reverse fuel table current_path items
  = draw_menu_body reverse fuel table' current_path items
  ∧ ∃ res, draw_menu_body reverse fuel table current_path items = Ok res.
Proof.
  intros Hstored Hstored' Hfuel.
  pose proof (stored_unique_ids _ _ Hstored) as Hids.
  destruct (draw_menu_body_spec reverse current_path table items fuel
              Hstored Hfuel) as (forest & st & rs & cache & Hrun & Hres & _).
  split; [|eauto].
  destruct (run_built _ _ _ _ _ _ _ Hrun) as [_ B].
  pose proof (built_active _ _ _ _ _ _ B) as Hact.
  rewrite pick_active_last in Hact. fold (matches forest) in Hact.
  unfold draw_menu_body. rewrite Hrun. simpl. rewrite Hact.
  destruct (last (matches forest)) as [na|] eqn:Elast; [|done].
  assert (na ∈ nodes forest) as Hna.
  { apply last_Some_elem_of in Elast. unfold matches in Elast.
    by apply list_elem_of_filter in Elast as [_ ?]. }
  destruct (node_lineage _ _ _ Hids _ _ _ _ Hrun na Hna) as (Hai & La & HLa).
  destruct (lineage_head _ _ _ HLa) as [l ->].
  assert (length l ≤ fuel) as Hlen.
  { pose proof (lineage_length _ Hids _ _ Hai HLa) as Hlen.
    simpl in Hlen. lia. }
  destruct Hstored as (Ht & Hsub & _). destruct Hstored' as (Ht' & Hsub' & _).
  rewrite (ancestors_lineage table items Ht Hsub fuel (item na) l) by done.
  by rewrite (ancestors_lineage table' items Ht' Hsub' fuel (item na) l)
    by done.
Qed.

Lemma other_rows_do_not_matter_witness :
  stored two_home two_home
  ∧ stored (two_home ++ [rec 7 (Some 1%Z) 0 "/other"]) two_home
  ∧ draw_menu_body no_reverse 2 two_home "/" two_home
    = draw_menu_body no_reverse 2 (two_home ++ [rec 7 (Some 1%Z) 0 "/other"])
                     "/" two_home.
Proof.
  assert (stored two_home two_home) as Hs
    by (apply (bool_decide_unpack _); vm_compute; exact I).
  assert (stored (two_home ++ [rec 7 (Some 1%Z) 0 "/other"]) two_home) as Hs'
    by (apply (bool_decide_unpack _); vm_compute; exact I).
  split_and!; [exact Hs | exact Hs' |].
  apply (other_rows_do_not_matter no_reverse 2 two_home _ "/" two_home Hs Hs').
  simpl. lia.
Defined.

(** X12. The marking after the traversal misses no ancestor. For stored
    records and enough fuel, when a record [a] with the list [l] of its
    ancestors is kept as active item, every record of [a :: l] has a node in
    the tree, so that no [node_map.get] comes back empty, and the open nodes
    are the nodes of the records of [a :: l] and no others. *)
Theorem ancestors_are_the_open_nodes reverse fuel table current_path items :
  stored table items → length items ≤ fuel →
  ∃ res,
    draw_menu_body reverse fuel table current_path items = Ok res
    ∧ ∀ a l, cached_ancestors res = Some (a, l) →
             (∀ x, x ∈ a :: l → ∃ n, n ∈ nodes (menu_tree res) ∧ item n = x)
             ∧ (∀ n, n ∈ nodes (menu_tree res) →
                     open n = true ↔ item n ∈ a :: l).
Proof.
  intros Hstored Hfuel.
  pose proof (stored_unique_ids _ _ Hstored) as Hids.
  destruct (draw_menu_body_spec reverse current_path table items fuel
              Hstored Hfuel) as (forest & st & rs & cache & Hrun & Hres & Hrs & Hc).
  eexists. split; [exact Hres |]. simpl. intros a l ->.
  destruct Hc as (HLa & na & Hlast & <-).
  assert (na ∈ nodes forest) as Hna.
  { apply last_Some_elem_of in Hlast. unfold matches in Hlast.
    by apply list_elem_of_filter in Hlast as [_ ?]. }
  destruct (node_lineage _ _ _ Hids _ _ _ _ Hrun na Hna) as (Hai & _).
  split.
  - intros x Hx.
    destruct (lineage_elem _ _ _ _ HLa Hx) as [Lx HLx].
    destruct (lineage_node _ _ _ _ _ _ _ Hrun x Lx) as (m & Hm & <-);
      [by eapply lineage_in_items | done |].
    exists (open_refs rs m). rewrite item_open_refs. split; [|done].
    apply elem_of_nodes_open_refs. eauto.
  - intros n' Hn'. apply elem_of_nodes_open_refs in Hn' as (n & Hn & ->).
    destruct (run_fresh _ _ _ _ _ _ Hrun n Hn) as (_ & Hclosed & _).
    rewrite open_open_refs, item_open_refs, Hclosed, (Hrs n Hn).
    rewrite (lineage_subtree _ _ _ Hids _ _ _ Hrun n na _ Hn Hna HLa).
    split.
    + intros [(na' & Hlast' & Hin)|?]; [|done]. congruence.
    + intros Hin. left. eauto.
Qed.

Lemma ancestors_are_the_open_nodes_witness :
  stored spec_items spec_items
  ∧ ∃ res,
      draw_menu_body no_reverse 3 spec_items "/about" spec_items = Ok res
      ∧ ∀ a l, cached_ancestors res = Some (a, l) →
               (∀ x, x ∈ a :: l →
                     ∃ n, n ∈ nodes (menu_tree res) ∧ item n = x)
               ∧ (∀ n, n ∈ nodes (menu_tree res) →
                       open n = true ↔ item n ∈ a :: l).
Proof.
  assert (stored spec_items spec_items) as Hs
    by (apply (bool_decide_unpack _); vm_compute; exact I).
  split; [exact Hs |].
  apply (ancestors_are_the_open_nodes no_reverse 3 spec_items "/about"
           spec_items Hs).
  simpl. lia.
Defined.
